(* ===================================================================== *)
(* PetitChat: the animated braille cat of the banner                      *)
(*   vibe/cli/textual_ui/widgets/banner/petit_chat.py                     *)
(* A shallow embedding of the dot set, the transition table, the widget   *)
(* state machine and the renderer it calls, with the properties of the    *)
(* animation loop proved over it.                                         *)
(* ===================================================================== *)

From Stdlib Require Import ZArith List Lia Bool.
From stdpp Require Import base decidable countable gmap sets list.
From Stdlib Require Import String.
From stdpp Require Import strings sorting.

Open Scope Z_scope.

(* --------------------------------------------------------------------- *)
(* Coordinates                                                            *)
(* --------------------------------------------------------------------- *)

(* A dot is the Python complex number [row*1j + column].  Both parts are
   small integers, which binary64 holds exactly, so complex equality and
   hashing coincide with equality of the pair (real part, imaginary part)
   of integers: the column is the real part, the row the imaginary one. *)
Definition complex : Type := (Z * Z)%type.

(* [J y x] is the literal [y j + x]; [2j] alone is [J 2 0]. *)
Definition J (y x : Z) : complex := (x, y).
Definition real (c : complex) : Z := fst c.
Definition imag (c : complex) : Z := snd c.
Definition column (c : complex) : Z := real c.
Definition row (c : complex) : Z := imag c.

Definition WIDTH : Z := 22.
Definition HEIGHT : Z := 12.

Definition set_of (l : list Z) : gset Z := list_to_set l.
Definition dots_of (l : list complex) : gset complex := list_to_set l.

Definition STARTING_DOTS : list (gset Z) :=
  [ set_of [];
    set_of [6; 7; 15; 19];
    set_of [5; 8; 14; 16; 18; 20];
    set_of [4; 6; 7; 14; 17; 20];
    set_of [3; 5; 10; 11; 12; 14; 20];
    set_of [3; 5; 9; 13; 14; 16; 18; 20];
    set_of [3; 5; 8; 13; 17; 21];
    set_of [3; 6; 7; 8; 11; 14; 15; 16; 18; 19; 20];
    set_of [4; 5; 8; 12; 17; 19];
    set_of [6; 7; 8; 13; 18; 20];
    set_of [9; 10; 11; 12; 13; 14; 15; 16; 17; 18; 19; 20];
    set_of [] ].

(* --------------------------------------------------------------------- *)
(* Transition frames                                                      *)
(* --------------------------------------------------------------------- *)

(* The dict {"remove": ..., "add": ...}. *)
Record delta : Type := Delta { remove : gset complex; add : gset complex }.

Definition QUEUE_RIGHT_TO_MID : delta :=
  {| remove := dots_of [J 1 6; J 1 7; J 2 8; J 3 4; J 3 6; J 3 7; J 8 4; J 8 5];
     add := dots_of [J 1 4; J 2 3; J 3 3; J 3 5; J 7 5; J 8 3; J 9 4; J 9 5] |}.

Definition QUEUE_MID_TO_RIGHT : delta :=
  {| remove := add QUEUE_RIGHT_TO_MID;
     add := remove QUEUE_RIGHT_TO_MID |}.

Definition QUEUE_MID_TO_LEFT : delta :=
  {| remove := dots_of [J 1 4; J 2 5; J 3 3; J 3 5; J 7 5; J 8 3; J 9 4; J 9 5];
     add := dots_of [J 1 1; J 1 2; J 2 0; J 3 1; J 3 2; J 3 4; J 8 4; J 8 5] |}.

Definition QUEUE_LEFT_TO_MID : delta :=
  {| remove := add QUEUE_MID_TO_LEFT;
     add := remove QUEUE_MID_TO_LEFT |}.

Definition WAIT : delta := {| remove := dots_of []; add := dots_of [] |}.

Definition HEAD_RIGHT : delta :=
  {| remove := dots_of [J 5 16; J 5 18; J 6 17];
     add := dots_of [J 5 17; J 5 19; J 6 18] |}.

Definition HEAD_LEFT : delta :=
  {| remove := dots_of [J 5 17; J 5 19; J 6 18];
     add := dots_of [J 5 16; J 5 18; J 6 17] |}.

Definition HEAD_DOWN : delta :=
  {| remove := dots_of
       [ J 1 15; J 1 19; J 2 14; J 2 16; J 2 18; J 2 20; J 3 17; J 5 17;
         J 5 19; J 6 13; J 6 18; J 6 21; J 7 14; J 7 15; J 7 16; J 7 19;
         J 7 20 ];
     add := dots_of
       [ J 2 15; J 2 19; J 3 16; J 3 18; J 4 17; J 6 14; J 6 17; J 6 19;
         J 6 20; J 7 13; J 7 18; J 7 21; J 8 14; J 8 15; J 8 16; J 8 18;
         J 8 20 ] |}.

Definition HEAD_UP : delta :=
  {| remove := dots_of
       [ J 2 15; J 2 19; J 3 16; J 3 18; J 4 17; J 6 14; J 6 17; J 6 19;
         J 6 20; J 7 13; J 7 18; J 7 21; J 8 14; J 8 15; J 8 16; J 8 18;
         J 8 20 ];
     add := dots_of
       [ J 1 15; J 1 19; J 2 14; J 2 16; J 2 18; J 2 20; J 3 17; J 5 17;
         J 5 19; J 6 13; J 6 18; J 6 21; J 7 14; J 7 15; J 7 16; J 7 18;
         J 7 19; J 7 20 ] |}.

Definition BLINK_EYES_HEAD_HIGH : list delta :=
  [ {| remove := dots_of [J 5 16; J 5 18]; add := dots_of [] |};
    {| remove := dots_of []; add := dots_of [J 5 16; J 5 18] |} ].

Definition BLINK_EYES_HEAD_LOW : list delta :=
  [ {| remove := dots_of [J 6 17; J 6 19]; add := dots_of [] |};
    {| remove := dots_of []; add := dots_of [J 6 17; J 6 19] |} ].

Definition TRANSITIONS : list delta :=
  BLINK_EYES_HEAD_HIGH ++
  [ WAIT;
    QUEUE_RIGHT_TO_MID;
    HEAD_RIGHT;
    WAIT;
    QUEUE_MID_TO_LEFT;
    WAIT;
    QUEUE_LEFT_TO_MID;
    WAIT;
    HEAD_DOWN;
    WAIT;
    QUEUE_MID_TO_RIGHT ] ++
  BLINK_EYES_HEAD_LOW ++
  [ WAIT;
    QUEUE_RIGHT_TO_MID;
    WAIT;
    QUEUE_MID_TO_LEFT;
    WAIT;
    HEAD_UP;
    WAIT;
    QUEUE_LEFT_TO_MID;
    HEAD_LEFT;
    WAIT;
    QUEUE_MID_TO_RIGHT ].

(* len(TRANSITIONS) *)
Definition len {A} (l : list A) : Z := Z.of_nat (length l).

(* enumerate(rows) starting at index [y] *)
Fixpoint enumerate_from {A} (y : Z) (rows : list A) : list (Z * A) :=
  match rows with
  | [] => []
  | r :: rows' => (y, r) :: enumerate_from (y + 1) rows'
  end.

Definition enumerate {A} (rows : list A) : list (Z * A) := enumerate_from 0 rows.

(* {1j * y + x for y, row in enumerate(STARTING_DOTS) for x in row} *)
Definition initial_dots : gset complex :=
  ⋃ (map (λ yr : Z * gset Z, set_map (J (fst yr)) (snd yr)) (enumerate STARTING_DOTS)).

(* dots -= transition["remove"]; dots |= transition["add"]
   Both updates are in place on the widget's own set, built afresh by
   __init__; the sets of a frame are only read, so that two frames sharing
   one set object (QUEUE_MID_TO_RIGHT["remove"] is QUEUE_RIGHT_TO_MID["add"])
   behave as two frames holding equal sets.  Neither operation can raise. *)
Definition apply_delta (dots : gset complex) (d : delta) : gset complex :=
  (dots ∖ remove d) ∪ add d.

Definition apply_all (ds : list delta) (dots : gset complex) : gset complex :=
  fold_left apply_delta ds dots.

(* TRANSITIONS[i]: an index in [0, len) counts from the front, one in
   [-len, 0) from the back, anything else raises IndexError ([None]). *)
Definition getitem {A} (l : list A) (i : Z) : option A :=
  if (0 <=? i) && (i <? len l) then l !! Z.to_nat i
  else if (- len l <=? i) && (i <? 0) then l !! Z.to_nat (len l + i)
  else None.

(* --------------------------------------------------------------------- *)
(* braille_renderer.render_braille                                        *)
(* --------------------------------------------------------------------- *)

(* A Python str, as its sequence of code points. *)
Definition text : Type := list Z.

Definition NEWLINE : Z := 10.
Definition SPACE : Z := 32.

(** Modelled from the spec: the "all dots off" base block character of the
    8-dot braille block, U+2800 BRAILLE PATTERN BLANK. *)
Definition BRAILLE_BASE : Z := 10240.

(** Modelled from the spec: the dot-to-bit mapping, as (row offset, column
    offset, bit): the offsets (0,0),(1,0),(2,0),(0,1),(1,1),(2,1),(3,0),
    (3,1) own bits 0..7. *)
Definition DOT_BITS : list (Z * Z * Z) :=
  [ (0, 0, 0); (1, 0, 1); (2, 0, 2); (0, 1, 3);
    (1, 1, 4); (2, 1, 5); (3, 0, 6); (3, 1, 7) ].

Definition ceil_div (a b : Z) : Z := - ((- a) / b).

(* range(n) *)
Definition range (n : Z) : list Z := map Z.of_nat (seq 0 (Z.to_nat n)).

(** Modelled from the spec: a sub-position counts when its coordinate is
    active; sub-positions of a trailing partial cell that fall beyond the
    grid are never set. *)
Definition dot_lit (dots : gset complex) (width height r c : Z) : bool :=
  bool_decide (J r c ∈ dots) && (r <? height) && (c <? width).

(** Modelled from the spec: OR-ing in the bit of one sub-position of cell
    (cr, cc), which covers rows [4cr, 4cr+4) and columns [2cc, 2cc+2). *)
Definition light (dots : gset complex) (width height cr cc : Z)
    (mask : Z) (e : Z * Z * Z) : Z :=
  let '(dr, dc, bit) := e in
  if dot_lit dots width height (4 * cr + dr) (2 * cc + dc)
  then Z.lor mask (Z.shiftl 1 bit)
  else mask.

(** Modelled from the spec: the 8-bit mask of a cell. *)
Definition cell_mask (dots : gset complex) (width height cr cc : Z) : Z :=
  fold_left (light dots width height cr cc) DOT_BITS 0.

(** Modelled from the spec: the emitted character is the base codepoint
    plus the cell's mask. *)
Definition cell_char (dots : gset complex) (width height cr cc : Z) : Z :=
  BRAILLE_BASE + cell_mask dots width height cr cc.

(** Modelled from the spec: one line per row of cells, cr below ceil(H/4),
    each made of the cells cc below ceil(W/2) from left to right. *)
Definition render_rows (dots : gset complex) (width height : Z) : list text :=
  map (λ cr, map (λ cc, cell_char dots width height cr cc)
                 (range (ceil_div width 2)))
      (range (ceil_div height 4)).

(* "\n".join(rows) *)
Fixpoint join_lines (rows : list text) : text :=
  match rows with
  | [] => []
  | r :: rest =>
      match rest with
      | [] => r
      | _ :: _ => r ++ NEWLINE :: join_lines rest
      end
  end.

(** Modelled from the spec: [render_braille] is imported from
    vibe/cli/textual_ui/widgets/braille_renderer.py, a module of the
    package whose source is not available.  The definition follows the
    renderer contract: the grid is tiled by cells of 2 columns by 4 rows,
    one character per cell, the rows of cells joined by a line break. *)
Definition render_braille (dots : gset complex) (width height : Z) : text :=
  join_lines (render_rows dots width height).

(* s.split("\n") *)
Fixpoint split_lines (s : text) : list text :=
  match s with
  | [] => [[]]
  | ch :: s' =>
      if ch =? NEWLINE then [] :: split_lines s'
      else match split_lines s' with
           | l :: ls => (ch :: l) :: ls
           | [] => [[ch]]
           end
  end.

(* --------------------------------------------------------------------- *)
(* class PetitChat(Static)                                                *)
(* --------------------------------------------------------------------- *)

(* The handle returned by set_interval. *)
Inductive Timer : Type := IntervalTimer.

Record PetitChat : Type := mkPetitChat {
  _dots : gset complex;
  _transition_index : Z;
  _do_animate : bool;
  _freeze_requested : bool;
  _timer : option Timer
}.

(* What a method asks of the hosting framework. *)
Inductive effect : Type :=
  | SetInterval                (* self.set_interval(0.16, callback) *)
  | TimerStop                  (* self._timer.stop() *)
  | InnerUpdate (t : text).    (* self._inner.update(t) *)

Definition __init__ (animate : bool) : PetitChat :=
  {| _dots := initial_dots;
     _transition_index := 0;
     _do_animate := animate;
     _freeze_requested := false;
     _timer := None |}.

(* The content of the Static that compose yields. *)
Definition compose (self : PetitChat) : text :=
  render_braille (_dots self) WIDTH HEIGHT.

Definition on_mount (self : PetitChat) : PetitChat * list effect :=
  if _do_animate self
  then ({| _dots := _dots self;
           _transition_index := _transition_index self;
           _do_animate := _do_animate self;
           _freeze_requested := _freeze_requested self;
           _timer := Some IntervalTimer |}, [SetInterval])
  else (self, []).

Definition freeze_animation (self : PetitChat) : PetitChat :=
  {| _dots := _dots self;
     _transition_index := _transition_index self;
     _do_animate := _do_animate self;
     _freeze_requested := true;
     _timer := _timer self |}.

(* [None] stands for the IndexError of TRANSITIONS[...]. *)
Definition _apply_next_transition (self : PetitChat)
  : option (PetitChat * list effect) :=
  if _freeze_requested self && (_transition_index self =? 0) then
    Some ({| _dots := _dots self;
             _transition_index := _transition_index self;
             _do_animate := _do_animate self;
             _freeze_requested := _freeze_requested self;
             _timer := None |},
          match _timer self with Some _ => [TimerStop] | None => [] end)
  else
    match getitem TRANSITIONS (_transition_index self) with
    | None => None
    | Some transition =>
        let dots := (_dots self ∖ remove transition) ∪ add transition in
        Some ({| _dots := dots;
                 _transition_index :=
                   (_transition_index self + 1) mod len TRANSITIONS;
                 _do_animate := _do_animate self;
                 _freeze_requested := _freeze_requested self;
                 _timer := _timer self |},
              [InnerUpdate (render_braille dots WIDTH HEIGHT)])
    end.

(* --------------------------------------------------------------------- *)
(* The hosting framework                                                  *)
(* --------------------------------------------------------------------- *)

(* The widget, every text handed to the inner Static (oldest first), and
   whether the interval timer is running. *)
Record Host : Type := mkHost {
  widget : PetitChat;
  screen : list text;
  clock : bool
}.

Definition perform (h : Host) (e : effect) : Host :=
  match e with
  | SetInterval => {| widget := widget h; screen := screen h; clock := true |}
  | TimerStop => {| widget := widget h; screen := screen h; clock := false |}
  | InnerUpdate t =>
      {| widget := widget h; screen := screen h ++ [t]; clock := clock h |}
  end.

Definition perform_all (h : Host) (es : list effect) : Host :=
  fold_left perform es h.

Definition with_widget (h : Host) (w : PetitChat) : Host :=
  {| widget := w; screen := screen h; clock := clock h |}.

(* Construction, compose and on_mount, in the order the framework runs
   them. *)
Definition mount (animate : bool) : Host :=
  let self := __init__ animate in
  let shown := {| widget := self; screen := [compose self]; clock := false |} in
  let '(self', es) := on_mount self in
  perform_all (with_widget shown self') es.

(* [Elapse]: one timer period goes by; the callback fires when the timer
   runs.  [Freeze]: the application calls freeze_animation().  The class
   has no other method. *)
Inductive event : Type := Elapse | Freeze.

Definition freeze (h : Host) : Host :=
  with_widget h (freeze_animation (widget h)).

Definition host_step (h : Host) (ev : event) : option Host :=
  match ev with
  | Freeze => Some (freeze h)
  | Elapse =>
      if clock h then
        match _apply_next_transition (widget h) with
        | None => None
        | Some (w, es) => Some (perform_all (with_widget h w) es)
        end
      else Some h
  end.

Fixpoint run (evs : list event) (h : Host) : option Host :=
  match evs with
  | [] => Some h
  | ev :: evs' =>
      match host_step h ev with
      | None => None
      | Some h' => run evs' h'
      end
  end.

Inductive reachable (animate : bool) : Host → Prop :=
  | reachable_mount : reachable animate (mount animate)
  | reachable_step h ev h' :
      reachable animate h → host_step h ev = Some h' → reachable animate h'.

(* The host after a list of events; the host as it was, should the run
   end in an exception. *)
Definition after (evs : list event) (h : Host) : Host :=
  match run evs h with
  | Some h' => h'
  | None => h
  end.

(* How many timer periods a list of events spans. *)
Fixpoint ticks (evs : list event) : Z :=
  match evs with
  | [] => 0
  | Elapse :: evs' => 1 + ticks evs'
  | Freeze :: evs' => ticks evs'
  end.

Definition in_bounds (c : complex) : Prop :=
  0 <= row c < HEIGHT ∧ 0 <= column c < WIDTH.

#[global] Instance in_bounds_dec (c : complex) : Decision (in_bounds c).
Proof. unfold in_bounds. apply _. Defined.

Arguments render_braille : simpl never.
Arguments initial_dots : simpl never.
Arguments TRANSITIONS : simpl never.
Arguments apply_delta : simpl never.

(* The pose the loop holds when the index is [i]. *)
Definition pose_at (i : Z) : gset complex :=
  apply_all (take (Z.to_nat i) TRANSITIONS) initial_dots.

(* The guard of the callback: a freeze is pending and the loop is at its
   boundary. *)
Definition at_rest (self : PetitChat) : bool :=
  _freeze_requested self && (_transition_index self =? 0).

(* The three ways a timer period can go: no timer runs; the callback takes
   its stop branch; the callback applies the current frame. *)
Inductive ticked (h : Host) : Host → Prop :=
  | ticked_idle :
      clock h = false → ticked h h
  | ticked_stop h' :
      clock h = true → at_rest (widget h) = true →
      widget h' = {| _dots := _dots (widget h);
                     _transition_index := _transition_index (widget h);
                     _do_animate := _do_animate (widget h);
                     _freeze_requested := _freeze_requested (widget h);
                     _timer := None |} →
      screen h' = screen h → clock h' = false →
      ticked h h'
  | ticked_apply d h' :
      clock h = true → at_rest (widget h) = false →
      getitem TRANSITIONS (_transition_index (widget h)) = Some d →
      widget h' = {| _dots := (_dots (widget h) ∖ remove d) ∪ add d;
                     _transition_index :=
                       (_transition_index (widget h) + 1) mod len TRANSITIONS;
                     _do_animate := _do_animate (widget h);
                     _freeze_requested := _freeze_requested (widget h);
                     _timer := _timer (widget h) |} →
      screen h' =
        screen h ++ [render_braille (_dots (widget h')) WIDTH HEIGHT] →
      clock h' = true →
      ticked h h'.

(* Periods left before the index is back at 0. *)
Definition periods_left (c : Z) : Z := (26 - c) mod 26.

(* [t] is the text block whose lines are [rows]: the rows joined by line
   breaks, no row holding a line break itself, so that splitting a block
   of at least one row at the line breaks gives the rows back. *)
Definition is_block (t : text) (rows : list text) : Prop :=
  t = join_lines rows ∧
  Forall (Forall (λ ch : Z, ch ≠ NEWLINE)) rows ∧
  (rows ≠ [] → split_lines t = rows).

(* The renderer contract: the text is a block of ceil(H/4) lines, each
   ceil(W/2) characters long; it depends on the set of dots alone; and the
   empty set renders to base characters only. *)
Definition render_contract (dots : gset complex) (width height : Z) : Prop :=
  (∃ (n m : Z) (rows : list text),
     4 * (n - 1) < height <= 4 * n ∧ 2 * (m - 1) < width <= 2 * m ∧
     is_block (render_braille dots width height) rows ∧
     len rows = n ∧ Forall (λ l : text, len l = m) rows) ∧
  (∀ dots' : gset complex,
     (∀ c, c ∈ dots' ↔ c ∈ dots) →
     render_braille dots' width height = render_braille dots width height) ∧
  (∃ rows : list text,
     is_block (render_braille ∅ width height) rows ∧
     Forall (Forall (λ ch : Z, ch = BRAILLE_BASE ∧ ch ≠ SPACE)) rows).

(* Whether the event makes the callback apply a frame. *)
Definition applies (h : Host) (ev : event) : bool :=
  match ev with
  | Elapse => clock h && negb (at_rest (widget h))
  | Freeze => false
  end.

(* One call of the callback in state [h].  The index is a position of the
   table and the call returns.  Either a freeze is pending and the index
   is 0: the dot set and the index stay, the timer handle is cleared and
   the timer, had the widget one, is stopped.  Or the frame at the position
   of the index in TRANSITIONS is applied whole, the index moves on by one
   modulo the length of the table, and the new dot set is rendered and
   handed to the display.  Nothing else of the widget changes, and the
   host runs the callback on a period of a running timer only. *)
Definition tick_contract (h : Host) : Prop :=
  let self := widget h in
  let i := _transition_index self in
  0 <= i < len TRANSITIONS ∧
  ∃ self' effects,
    _apply_next_transition self = Some (self', effects) ∧
    _do_animate self' = _do_animate self ∧
    _freeze_requested self' = _freeze_requested self ∧
    ((_freeze_requested self = true ∧ i = 0 ∧
      _dots self' = _dots self ∧
      _transition_index self' = i ∧
      _timer self' = None ∧
      effects = match _timer self with Some _ => [TimerStop] | None => [] end) ∨
     (¬ (_freeze_requested self = true ∧ i = 0) ∧
      ∃ d, TRANSITIONS !! Z.to_nat i = Some d ∧
        _dots self' = (_dots self ∖ remove d) ∪ add d ∧
        _transition_index self' = (i + 1) mod len TRANSITIONS ∧
        _timer self' = _timer self ∧
        effects =
          [InnerUpdate (render_braille (_dots self') WIDTH HEIGHT)])) ∧
    (clock h = true →
       host_step h Elapse = Some (perform_all (with_widget h self') effects)) ∧
    (clock h = false → host_step h Elapse = Some h).

(* The request can come at every index of the table.  After
   freeze_animation() at index c: frames keep being applied for the
   periods left in the loop, the next period stops the timer at the
   initial pose, and asking twice is asking once. *)
Definition freeze_contract (h : Host) (evs : list event) : Prop :=
  let c := _transition_index (widget h) in
  let n := ticks evs in
  (∀ i, 0 <= i < len TRANSITIONS →
     ∃ h0, reachable true h0 ∧ clock h0 = true ∧
       _freeze_requested (widget h0) = false ∧
       _transition_index (widget h0) = i) ∧
  freeze (freeze h) = freeze h ∧
  ∃ h2, run evs (freeze h) = Some h2 ∧
    (n < periods_left c → _transition_index (widget h2) ≠ 0) ∧
    (n <= periods_left c →
       _dots (widget h2) =
         apply_all (take (Z.to_nat n) (drop (Z.to_nat c) TRANSITIONS))
                   (_dots (widget h)) ∧
       _transition_index (widget h2) = (c + n) mod len TRANSITIONS ∧
       clock h2 = clock h) ∧
    (periods_left c < n →
       clock h2 = false ∧ _timer (widget h2) = None ∧
       _transition_index (widget h2) = 0 ∧
       _dots (widget h2) = initial_dots).


(* The index starts at 0, stays within the table, and moves, by one modulo
   the table's length, exactly with the events that apply a frame. *)
Definition cursor_contract (animate : bool) (h : Host) (ev : event) : Prop :=
  _transition_index (__init__ animate) = 0 ∧
  _transition_index (widget (mount animate)) = 0 ∧
  len TRANSITIONS = 26 ∧
  0 <= _transition_index (widget h) < len TRANSITIONS ∧
  ∃ h', host_step h ev = Some h' ∧
    0 <= _transition_index (widget h') < len TRANSITIONS ∧
    if applies h ev then
      _transition_index (widget h') =
        (_transition_index (widget h) + 1) mod len TRANSITIONS ∧
      ∃ d, getitem TRANSITIONS (_transition_index (widget h)) = Some d ∧
           _dots (widget h') = apply_delta (_dots (widget h)) d
    else
      _transition_index (widget h') = _transition_index (widget h) ∧
      _dots (widget h') = _dots (widget h).

(* Every authored coordinate, and every dot of the state, is on the grid. *)
Definition bounds_contract (h : Host) : Prop :=
  (∀ c, c ∈ initial_dots → in_bounds c) ∧
  (∀ d c, d ∈ TRANSITIONS → c ∈ remove d ∨ c ∈ add d → in_bounds c) ∧
  (∀ c, c ∈ _dots (widget h) → in_bounds c).

(* Once the stop branch has run nothing moves any more, and a widget built
   with animate = False never gets a timer and keeps the initial pose. *)
Definition rest_contract (animate : bool) (h : Host) (evs : list event) : Prop :=
  (clock h = true → at_rest (widget h) = true →
     ∃ h1, host_step h Elapse = Some h1 ∧
       clock h1 = false ∧ _timer (widget h1) = None ∧
       ∃ h2, run evs h1 = Some h2 ∧
         _dots (widget h2) = _dots (widget h1) ∧
         _transition_index (widget h2) = _transition_index (widget h1) ∧
         screen h2 = screen h1 ∧
         clock h2 = false ∧ _timer (widget h2) = None) ∧
  (animate = false →
     snd (on_mount (__init__ animate)) = [] ∧
     clock (mount animate) = false ∧
     clock h = false ∧ _timer (widget h) = None ∧
     _transition_index (widget h) = 0 ∧
     _dots (widget h) = initial_dots ∧
     screen h = [render_braille initial_dots WIDTH HEIGHT]).

(* The display gets the initial pose at mount and one text per applied
   frame; a period that applies no frame hands it nothing. *)
Definition output_contract (animate : bool) (h : Host) : Prop :=
  screen (mount animate) = [render_braille initial_dots WIDTH HEIGHT] ∧
  last (screen h) = Some (render_braille (_dots (widget h)) WIDTH HEIGHT) ∧
  screen (freeze h) = screen h ∧
  ∃ h', host_step h Elapse = Some h' ∧
    if applies h Elapse
    then screen h' =
           screen h ++ [render_braille (_dots (widget h')) WIDTH HEIGHT]
    else screen h' = screen h.

(* What holds of the widget and its host all along an execution. *)
Record Inv (animate : bool) (h : Host) : Prop := mkInv {
  inv_index : 0 <= _transition_index (widget h) < 26;
  inv_dots : _dots (widget h) = pose_at (_transition_index (widget h));
  inv_animate : _do_animate (widget h) = animate;
  inv_timer :
    _timer (widget h) = if clock h then Some IntervalTimer else None;
  inv_rest : clock h = false → _transition_index (widget h) = 0;
  inv_idle : animate = false → clock h = false;
  inv_stopped :
    animate = true → clock h = false → _freeze_requested (widget h) = true;
  inv_screen :
    last (screen h) = Some (render_braille (_dots (widget h)) WIDTH HEIGHT)
}.

(* --------------------------------------------------------------------- *)
(* class AgentApp(Container)                                              *)
(*   vibe/cli/textual_ui/widgets/agent_app.py                             *)
(* --------------------------------------------------------------------- *)

Module agent_app.

(* A str as the string of its UTF-8 bytes: equality is equality of code
   point sequences, and the byte order of UTF-8 is the code point order
   that Python's comparison of str uses. *)

(* The attributes AgentApp reads of the agent loop handed to it.  The loop
   is an object of the application which other code updates; a method
   that reads it takes its state at the time of the call. *)
Record AgentProfile : Type := mkAgentProfile {
  display_name : string;
  description : string
}.

Record ModelConfig : Type := mkModelConfig { alias : string }.

Record VibeConfig : Type := mkVibeConfig {
  models : list ModelConfig;
  active_model : string
}.

(* available_agents is a dict; its items, in insertion order. *)
Record AgentManager : Type := mkAgentManager {
  available_agents : list (string * AgentProfile)
}.

Record AgentLoop : Type := mkAgentLoop {
  agent_manager : AgentManager;
  config : VibeConfig;
  agent_profile : AgentProfile
}.

Record AgentSettingDefinition : Type := mkSetting {
  key : string;
  label : string;
  type : string;
  options : list string;
  category : string
}.

(* A Static of the framework: its content and its CSS classes. *)
Record Static : Type := mkStatic {
  content : string;
  classes : gset string
}.

Definition NoMarkupStatic (content : string) (classes : list string) : Static :=
  mkStatic content (list_to_set classes).

Definition update (w : Static) (t : string) : Static :=
  mkStatic t (classes w).

Definition remove_class (w : Static) (c : string) : Static :=
  mkStatic (content w) (classes w ∖ {[ c ]}).

Definition add_class (w : Static) (c : string) : Static :=
  mkStatic (content w) (classes w ∪ {[ c ]}).

Inductive Message : Type :=
  | AgentChanged (agent_name : string)
  | ModelChanged (model_alias : string)
  | AgentClosed (agent_changes model_changes : gmap string string).

(* What a method asks of the framework. *)
Inductive request : Type :=
  | post_message (m : Message)
  | focus
  | call_after_refresh_focus.

Inductive exn : Type := ValueError | IndexError | ZeroDivisionError.

Record AgentApp : Type := mkAgentApp {
  selected_index : Z;
  agent_changes : gmap string string;
  model_changes : gmap string string;
  settings : list AgentSettingDefinition;
  title_widget : option Static;
  setting_widgets : list Static;
  help_widget : option Static
}.

(* How a method ends: it returns, or an exception leaves it; either way
   with the state of the object and the requests made up to there. *)
Inductive outcome : Type :=
  | Returned (self : AgentApp) (out : list request)
  | Raised (e : exn) (self : AgentApp) (out : list request).

(* f"{agent.display_name} - {agent.description}" *)
Definition agent_line (agent : AgentProfile) : string :=
  display_name agent +:+ " - " +:+ description agent.

Definition str_le (a b : string) : Prop := String.leb a b = true.

#[global] Instance str_le_dec (a b : string) : Decision (str_le a b).
Proof. unfold str_le. apply _. Defined.

(* sorted(l), on str *)
Definition sorted (l : list string) : list string := merge_sort str_le l.

Definition __init__ (agent_loop : AgentLoop) : AgentApp :=
  let agent_options :=
    sorted (map (λ kv : string * AgentProfile, agent_line (snd kv))
                (available_agents (agent_manager agent_loop))) in
  let model_options := map alias (models (config agent_loop)) in
  {| selected_index := 0;
     agent_changes := ∅;
     model_changes := ∅;
     settings :=
       [ {| key := "agent"; label := "Agent"; type := "cycle";
            options := agent_options; category := "agent" |};
         {| key := "active_model"; label := "Model"; type := "cycle";
            options := model_options; category := "model" |} ];
     title_widget := None;
     setting_widgets := [];
     help_widget := None |}.

(* The state after the generator has run to its end, and the widgets it
   yielded, in order. *)
Definition compose (self : AgentApp) : AgentApp * list Static :=
  let title := NoMarkupStatic "Agent & Model Settings" ["settings-title"] in
  let rows :=
    map (λ _ : AgentSettingDefinition, NoMarkupStatic "" ["settings-option"])
        (settings self) in
  let help :=
    NoMarkupStatic "↑↓ navigate  Space/Enter toggle  ESC exit"
                   ["settings-help"] in
  ({| selected_index := selected_index self;
      agent_changes := agent_changes self;
      model_changes := model_changes self;
      settings := settings self;
      title_widget := Some title;
      setting_widgets := setting_widgets self ++ rows;
      help_widget := Some help |},
   [title; NoMarkupStatic "" []] ++ rows ++ [NoMarkupStatic "" []; help]).

Definition _get_display_value (self : AgentApp) (agent_loop : AgentLoop)
    (setting : AgentSettingDefinition) : string :=
  match agent_changes self !! key setting with
  | Some v => v
  | None =>
      match model_changes self !! key setting with
      | Some v => v
      | None =>
          if String.eqb (key setting) "agent"
          then agent_line (agent_profile agent_loop)
          else if String.eqb (key setting) "active_model"
          then active_model (config agent_loop)
          else ""
      end
  end.

(* The body of the loop of _update_display, for the widget at index i. *)
Definition show (self : AgentApp) (agent_loop : AgentLoop) (i : Z)
    (setting : AgentSettingDefinition) (widget : Static) : Static :=
  let is_selected := i =? selected_index self in
  let cursor : string := if is_selected then "› " else "  " in
  let text :=
    cursor +:+ label setting +:+ ": "
           +:+ _get_display_value self agent_loop setting in
  let widget := update widget text in
  let widget := remove_class widget "settings-cursor-selected" in
  let widget := remove_class widget "settings-value-cycle-selected" in
  let widget := remove_class widget "settings-value-cycle-unselected" in
  if is_selected
  then add_class widget "settings-value-cycle-selected"
  else add_class widget "settings-value-cycle-unselected".

(* for i, (setting, widget) in enumerate(zip(..., strict=True)), from
   index i on: the widgets after the loop, and the ValueError of zip when
   one list ends before the other (the pairs before it have been dealt
   with by then). *)
Fixpoint show_all (self : AgentApp) (agent_loop : AgentLoop) (i : Z)
    (ss : list AgentSettingDefinition) (ws : list Static)
  : list Static * option exn :=
  match ss, ws with
  | [], [] => ([], None)
  | s :: ss', w :: ws' =>
      let '(ws'', e) := show_all self agent_loop (i + 1) ss' ws' in
      (show self agent_loop i s w :: ws'', e)
  | [], _ :: _ => (ws, Some ValueError)
  | _ :: _, [] => ([], Some ValueError)
  end.

Definition with_widgets (self : AgentApp) (ws : list Static) : AgentApp :=
  {| selected_index := selected_index self;
     agent_changes := agent_changes self;
     model_changes := model_changes self;
     settings := settings self;
     title_widget := title_widget self;
     setting_widgets := ws;
     help_widget := help_widget self |}.

Definition with_index (self : AgentApp) (i : Z) : AgentApp :=
  {| selected_index := i;
     agent_changes := agent_changes self;
     model_changes := model_changes self;
     settings := settings self;
     title_widget := title_widget self;
     setting_widgets := setting_widgets self;
     help_widget := help_widget self |}.

Definition _update_display (self : AgentApp) (agent_loop : AgentLoop)
    (out : list request) : outcome :=
  let '(ws, e) :=
    show_all self agent_loop 0 (settings self) (setting_widgets self) in
  match e with
  | None => Returned (with_widgets self ws) out
  | Some e => Raised e (with_widgets self ws) out
  end.

Definition on_mount (self : AgentApp) (agent_loop : AgentLoop) : outcome :=
  match _update_display self agent_loop [] with
  | Returned self' out => Returned self' (out ++ [focus])
  | Raised e self' out => Raised e self' out
  end.

Definition action_move_up (self : AgentApp) (agent_loop : AgentLoop)
  : outcome :=
  if len (settings self) =? 0 then Raised ZeroDivisionError self []
  else
    _update_display
      (with_index self ((selected_index self - 1) mod len (settings self)))
      agent_loop [].

Definition action_move_down (self : AgentApp) (agent_loop : AgentLoop)
  : outcome :=
  if len (settings self) =? 0 then Raised ZeroDivisionError self []
  else
    _update_display
      (with_index self ((selected_index self + 1) mod len (settings self)))
      agent_loop [].

(* options.index(current): the first position holding current, [None] for
   the ValueError when there is none. *)
Fixpoint index (options : list string) (current : string) : option Z :=
  match options with
  | [] => None
  | o :: options' =>
      if String.eqb o current then Some 0
      else match index options' current with
           | Some i => Some (i + 1)
           | None => None
           end
  end.

(* options[0] if options else current *)
Definition fallback (options : list string) (current : string) : string :=
  match options with
  | [] => current
  | o :: _ => o
  end.

(* The try block of action_toggle_setting and its handler of ValueError
   and IndexError; [None] is the ZeroDivisionError of the modulo, which
   the handler does not catch. *)
Definition next_value (options : list string) (current : string)
  : option string :=
  match index options current with
  | None => Some (fallback options current)
  | Some current_idx =>
      if len options =? 0 then None
      else
        match getitem options ((current_idx + 1) mod len options) with
        | Some new_value => Some new_value
        | None => Some (fallback options current)
        end
  end.

Definition action_toggle_setting (self : AgentApp) (agent_loop : AgentLoop)
  : outcome :=
  match getitem (settings self) (selected_index self) with
  | None => Raised IndexError self []
  | Some setting =>
      let current := _get_display_value self agent_loop setting in
      match next_value (options setting) current with
      | None => Raised ZeroDivisionError self []
      | Some new_value =>
          if String.eqb (category setting) "agent"
          then
            _update_display
              {| selected_index := selected_index self;
                 agent_changes := <[ key setting := new_value ]> (agent_changes self);
                 model_changes := model_changes self;
                 settings := settings self;
                 title_widget := title_widget self;
                 setting_widgets := setting_widgets self;
                 help_widget := help_widget self |}
              agent_loop [post_message (AgentChanged new_value)]
          else
            _update_display
              {| selected_index := selected_index self;
                 agent_changes := agent_changes self;
                 model_changes := <[ key setting := new_value ]> (model_changes self);
                 settings := settings self;
                 title_widget := title_widget self;
                 setting_widgets := setting_widgets self;
                 help_widget := help_widget self |}
              agent_loop [post_message (ModelChanged new_value)]
      end
  end.

Definition action_cycle (self : AgentApp) (agent_loop : AgentLoop) : outcome :=
  action_toggle_setting self agent_loop.

Definition action_close (self : AgentApp) : outcome :=
  Returned self
    [post_message (AgentClosed (agent_changes self) (model_changes self))].

Definition on_blur (self : AgentApp) : outcome :=
  Returned self [call_after_refresh_focus].

(* BINDINGS: the action a key is bound to. *)
Inductive action : Type :=
  | move_up | move_down | toggle_setting | cycle | close | blur.

Definition BINDINGS : list (string * action) :=
  [ ("up", move_up); ("down", move_down);
    ("space", toggle_setting); ("enter", cycle) ].

Definition act (a : action) (self : AgentApp) (agent_loop : AgentLoop)
  : outcome :=
  match a with
  | move_up => action_move_up self agent_loop
  | move_down => action_move_down self agent_loop
  | toggle_setting => action_toggle_setting self agent_loop
  | cycle => action_cycle self agent_loop
  | close => action_close self
  | blur => on_blur self
  end.

(* Construction, compose and on_mount, in the order the framework runs
   them. *)
Definition start (agent_loop : AgentLoop) : outcome :=
  on_mount (fst (compose (__init__ agent_loop))) agent_loop.

(* The widget after a list of actions, each with the state of the agent
   loop at its time, and all requests made on the way; an exception ends
   the run. *)
Fixpoint run (steps : list (action * AgentLoop)) (self : AgentApp)
    (out : list request) : outcome :=
  match steps with
  | [] => Returned self out
  | (a, agent_loop) :: steps' =>
      match act a self agent_loop with
      | Returned self' out' => run steps' self' (out ++ out')
      | Raised e self' out' => Raised e self' (out ++ out')
      end
  end.

(* The states of a widget built from the agent loop in state
   [agent_loop0]; the loop may be in any other state at each later
   action. *)
Inductive reachable (agent_loop0 : AgentLoop) : AgentApp → Prop :=
  | reachable_start self out :
      start agent_loop0 = Returned self out → reachable agent_loop0 self
  | reachable_act self a agent_loop self' out :
      reachable agent_loop0 self →
      act a self agent_loop = Returned self' out →
      reachable agent_loop0 self'.

(* The agent_name of the last AgentChanged among the requests, and the
   model_alias of the last ModelChanged. *)
Fixpoint last_agent (out : list request) : option string :=
  match out with
  | [] => None
  | r :: out' =>
      match last_agent out' with
      | Some v => Some v
      | None =>
          match r with
          | post_message (AgentChanged v) => Some v
          | _ => None
          end
      end
  end.

Fixpoint last_model (out : list request) : option string :=
  match out with
  | [] => None
  | r :: out' =>
      match last_model out' with
      | Some v => Some v
      | None =>
          match r with
          | post_message (ModelChanged v) => Some v
          | _ => None
          end
      end
  end.

(* The value after n turns of the try block, starting at current. *)
Fixpoint toggles (n : nat) (options : list string) (current : string)
  : option string :=
  match n with
  | O => Some current
  | S n' =>
      match toggles n' options current with
      | Some v => next_value options v
      | None => None
      end
  end.

(* The setting widgets as _update_display leaves them. *)
Definition redrawn (self : AgentApp) (agent_loop : AgentLoop) : list Static :=
  fst (show_all self agent_loop 0 (settings self) (setting_widgets self)).

(* What holds of a mounted widget built from [agent_loop0]. *)
Record Inv (agent_loop0 : AgentLoop) (self : AgentApp) : Prop := mkInv {
  inv_settings : settings self = settings (__init__ agent_loop0);
  inv_widgets : length (setting_widgets self) = 2%nat;
  inv_index : 0 <= selected_index self < 2;
  inv_agent_keys :
    ∀ k v, agent_changes self !! k = Some v → k = "agent"%string;
  inv_model_keys :
    ∀ k v, model_changes self !! k = Some v → k = "active_model"%string;
  inv_classes :
    Forall (λ w, "settings-option"%string ∈ classes w) (setting_widgets self)
}.

(* The widget as [start] leaves it. *)
Definition mounted (agent_loop : AgentLoop) : AgentApp :=
  match start agent_loop with
  | Returned self _ => self
  | Raised _ self _ => self
  end.

(* [self'] is [self] but for the index and for what its setting widgets
   show. *)
Definition moved (self self' : AgentApp) : Prop :=
  settings self' = settings self ∧
  agent_changes self' = agent_changes self ∧
  model_changes self' = model_changes self ∧
  title_widget self' = title_widget self ∧
  help_widget self' = help_widget self ∧
  length (setting_widgets self') = length (setting_widgets self).

(* Moving down, back up, and up: all three return without a request and
   change nothing but the index and the drawing; down goes to the next
   setting, from the last to the first; up to the previous one, from the
   first to the last; and up after down is back where it started. *)
Definition moves_contract (self : AgentApp) (loop1 loop2 : AgentLoop) : Prop :=
  ∃ down back up,
    action_move_down self loop1 = Returned down [] ∧
    action_move_up down loop2 = Returned back [] ∧
    action_move_up self loop1 = Returned up [] ∧
    selected_index down =
      (if selected_index self =? len (settings self) - 1 then 0
       else selected_index self + 1) ∧
    selected_index up =
      (if selected_index self =? 0 then len (settings self) - 1
       else selected_index self - 1) ∧
    selected_index back = selected_index self ∧
    moved self down ∧ moved self back ∧ moved self up.

(* Whether an action ends with a call of _update_display. *)
Definition redraws (a : action) : bool :=
  match a with
  | close | blur => false
  | _ => true
  end.

(* An agent loop to try things on. *)
Definition sample_loop : AgentLoop :=
  {| agent_manager :=
       {| available_agents :=
            [ ("plan", mkAgentProfile "Plan" "reads, then proposes");
              ("default", mkAgentProfile "Default" "asks before acting") ] |};
     config :=
       {| models := [mkModelConfig "large"; mkModelConfig "small"];
          active_model := "small" |};
     agent_profile := mkAgentProfile "Default" "asks before acting" |}.

End agent_app.

(* The frame that undoes [d]: QUEUE_MID_TO_RIGHT and QUEUE_LEFT_TO_MID are
   built this way from QUEUE_RIGHT_TO_MID and QUEUE_MID_TO_LEFT. *)
Definition swapped (d : delta) : delta :=
  {| remove := add d; add := remove d |}.


(* --------------------------------------------------------------------- *)
(* The table                                                              *)
(* --------------------------------------------------------------------- *)

Lemma len_TRANSITIONS : len TRANSITIONS = 26.
Proof. reflexivity. Qed.

Lemma length_TRANSITIONS : length TRANSITIONS = 26%nat.
Proof. reflexivity. Qed.

Lemma closure_full : apply_all TRANSITIONS initial_dots = initial_dots.
Proof. apply (bool_decide_unpack _). vm_compute. exact I. Qed.

Lemma getitem_front {A} (l : list A) (i : Z) :
  0 <= i < len l → getitem l i = l !! Z.to_nat i.
Proof.
  intros Hi. unfold getitem.
  destruct (Z.leb_spec 0 i); [|lia].
  destruct (Z.ltb_spec i (len l)); [|lia].
  reflexivity.
Qed.

Lemma getitem_total {A} (l : list A) (i : Z) :
  0 <= i < len l → ∃ x, getitem l i = Some x ∧ l !! Z.to_nat i = Some x.
Proof.
  intros Hi. rewrite getitem_front by assumption.
  destruct (lookup_lt_is_Some_2 l (Z.to_nat i)) as [x Hx].
  - unfold len in Hi. lia.
  - exists x. split; assumption.
Qed.

Lemma apply_all_snoc (ds : list delta) (d : delta) (dots : gset complex) :
  apply_all (ds ++ [d]) dots = apply_delta (apply_all ds dots) d.
Proof. unfold apply_all. rewrite fold_left_app. reflexivity. Qed.

Lemma pose_step (i : Z) (d : delta) :
  0 <= i < 26 → getitem TRANSITIONS i = Some d →
  apply_delta (pose_at i) d = pose_at ((i + 1) mod 26).
Proof.
  intros Hi Hd.
  rewrite getitem_front in Hd by (rewrite len_TRANSITIONS; lia).
  unfold pose_at. rewrite <- apply_all_snoc.
  rewrite <- (take_S_r _ _ _ Hd).
  destruct (Z.eq_dec i 25) as [->|Hne].
  - replace ((25 + 1) mod 26) with 0 by reflexivity.
    rewrite take_ge by (rewrite length_TRANSITIONS; lia).
    change (take (Z.to_nat 0) TRANSITIONS) with (@nil delta).
    apply closure_full.
  - rewrite Z.mod_small by lia.
    replace (Z.to_nat (i + 1)) with (S (Z.to_nat i)) by lia.
    reflexivity.
Qed.

(* --------------------------------------------------------------------- *)
(* One call of the timer callback                                         *)
(* --------------------------------------------------------------------- *)

Lemma tick_stop (self : PetitChat) :
  _freeze_requested self = true → _transition_index self = 0 →
  _apply_next_transition self =
    Some ({| _dots := _dots self;
             _transition_index := _transition_index self;
             _do_animate := _do_animate self;
             _freeze_requested := _freeze_requested self;
             _timer := None |},
          match _timer self with Some _ => [TimerStop] | None => [] end).
Proof.
  intros Hf Hi. unfold _apply_next_transition. rewrite Hf, Hi. reflexivity.
Qed.

Lemma tick_apply (self : PetitChat) (d : delta) :
  _freeze_requested self && (_transition_index self =? 0) = false →
  getitem TRANSITIONS (_transition_index self) = Some d →
  _apply_next_transition self =
    Some ({| _dots := (_dots self ∖ remove d) ∪ add d;
             _transition_index :=
               (_transition_index self + 1) mod len TRANSITIONS;
             _do_animate := _do_animate self;
             _freeze_requested := _freeze_requested self;
             _timer := _timer self |},
          [InnerUpdate
             (render_braille ((_dots self ∖ remove d) ∪ add d) WIDTH HEIGHT)]).
Proof.
  intros Hg Hd. unfold _apply_next_transition. rewrite Hg, Hd. reflexivity.
Qed.

Lemma Inv_mount (animate : bool) : Inv animate (mount animate).
Proof.
  destruct animate; constructor; cbn; try reflexivity; try lia; congruence.
Qed.

Lemma Inv_step (animate : bool) (h : Host) (ev : event) :
  Inv animate h → ∃ h', host_step h ev = Some h' ∧ Inv animate h'.
Proof.
  destruct h as [[dots idx anim fr tm] scr clk].
  intros [Hidx Hdots Hanim Htimer Hrest Hidle Hstop Hscr]. cbn in *.
  destruct ev; cbn.
  - destruct clk.
    + destruct (fr && (idx =? 0)) eqn:Hg.
      * apply andb_true_iff in Hg as [-> Hz]. apply Z.eqb_eq in Hz as ->.
        rewrite tick_stop by reflexivity. cbn. rewrite Htimer. cbn.
        eexists. split; [reflexivity|].
        constructor; cbn; try assumption; try reflexivity; auto.
      * destruct (getitem_total TRANSITIONS idx) as (d & Hd & _).
        { rewrite len_TRANSITIONS. exact Hidx. }
        rewrite (tick_apply _ d) by assumption. cbn.
        eexists. split; [reflexivity|].
        rewrite len_TRANSITIONS.
        constructor; cbn;
          first [ assumption | discriminate | apply last_snoc
                | apply Z.mod_pos_bound; lia
                | rewrite Hdots; apply (pose_step idx d Hidx Hd)
                | intros Ha; apply Hidle in Ha; discriminate ].
    + eexists. split; [reflexivity|].
      constructor; cbn; assumption.
  - eexists. split; [reflexivity|].
    constructor; cbn; try assumption. reflexivity.
Qed.

Lemma reachable_Inv (animate : bool) (h : Host) :
  reachable animate h → Inv animate h.
Proof.
  induction 1 as [|h ev h' _ IH Hstep].
  - apply Inv_mount.
  - destruct (Inv_step animate h ev IH) as (h'' & Hs & HI).
    congruence.
Qed.

Lemma host_step_ticked (animate : bool) (h : Host) :
  Inv animate h → ∃ h', host_step h Elapse = Some h' ∧ ticked h h'.
Proof.
  destruct h as [[dots idx anim fr tm] scr clk].
  intros [Hidx Hdots Hanim Htimer Hrest Hidle Hstop Hscr]. cbn in *.
  destruct clk.
  - destruct (fr && (idx =? 0)) eqn:Hg.
    + pose proof Hg as Hg'.
      apply andb_true_iff in Hg' as [-> Hz]. apply Z.eqb_eq in Hz as ->.
      rewrite tick_stop by reflexivity. cbn. rewrite Htimer. cbn.
      eexists. split; [reflexivity|].
      apply ticked_stop; reflexivity.
    + destruct (getitem_total TRANSITIONS idx) as (d & Hd & _).
      { rewrite len_TRANSITIONS. exact Hidx. }
      rewrite (tick_apply _ d) by assumption. cbn.
      eexists. split; [reflexivity|].
      apply (ticked_apply _ d); cbn; first [assumption | reflexivity].
  - exists (mkHost (mkPetitChat dots idx anim fr tm) scr false).
    split; [reflexivity|]. apply ticked_idle. reflexivity.
Qed.

Lemma reachable_run (animate : bool) (evs : list event) (h h' : Host) :
  reachable animate h → run evs h = Some h' → reachable animate h'.
Proof.
  revert h. induction evs as [|ev evs IH]; intros h Hr; cbn.
  - intros [= <-]. exact Hr.
  - destruct (host_step h ev) as [h1|] eqn:Hs; [|discriminate].
    apply IH. eapply reachable_step; eassumption.
Qed.

Lemma run_total (animate : bool) (evs : list event) :
  ∀ h, Inv animate h → ∃ h', run evs h = Some h' ∧ Inv animate h'.
Proof.
  induction evs as [|ev evs IH]; intros h HI; cbn [run].
  - exists h. split; [reflexivity|exact HI].
  - destruct (Inv_step animate h ev HI) as (h1 & Hs & HI1).
    rewrite Hs. apply IH. exact HI1.
Qed.

Lemma run_after (animate : bool) (evs : list event) (h : Host) :
  Inv animate h → run evs h = Some (after evs h).
Proof.
  intros HI. destruct (run_total animate evs h HI) as (h' & Hr & _).
  unfold after. rewrite Hr. reflexivity.
Qed.

Lemma reachable_after (animate : bool) (evs : list event) (h : Host) :
  reachable animate h → reachable animate (after evs h).
Proof.
  intros Hr. apply (reachable_run animate evs h); [exact Hr|].
  apply (run_after animate). apply reachable_Inv. exact Hr.
Qed.

(* --------------------------------------------------------------------- *)
(* Runs after a freeze request                                            *)
(* --------------------------------------------------------------------- *)

Lemma ticks_nonneg (evs : list event) : 0 <= ticks evs.
Proof. induction evs as [|[] evs IH]; cbn [ticks]; lia. Qed.

Lemma periods_left_0 : periods_left 0 = 0.
Proof. reflexivity. Qed.

Lemma periods_left_pos (c : Z) : 0 < c < 26 → periods_left c = 26 - c.
Proof. intros Hc. unfold periods_left. apply Z.mod_small. lia. Qed.

Lemma periods_left_range (c : Z) : 0 <= periods_left c < 26.
Proof. unfold periods_left. apply Z.mod_pos_bound. lia. Qed.

Lemma freeze_frozen (h : Host) :
  _freeze_requested (widget h) = true → freeze h = h.
Proof.
  destruct h as [[dots idx anim fr tm] scr clk]. cbn. intros ->. reflexivity.
Qed.

Lemma frozen_run (animate : bool) (evs : list event) :
  ∀ h, Inv animate h → _freeze_requested (widget h) = true →
  ∃ h2, run evs h = Some h2 ∧ Inv animate h2 ∧
    _freeze_requested (widget h2) = true ∧
    let c := _transition_index (widget h) in
    let k := Z.to_nat (Z.min (ticks evs) (periods_left c)) in
    length (screen h2) = (length (screen h) + k)%nat ∧
    _dots (widget h2) =
      apply_all (take k (drop (Z.to_nat c) TRANSITIONS)) (_dots (widget h)) ∧
    (ticks evs <= periods_left c →
       _transition_index (widget h2) = (c + ticks evs) mod 26 ∧
       clock h2 = clock h) ∧
    (periods_left c < ticks evs →
       clock h2 = false ∧ _transition_index (widget h2) = 0).
Proof.
  induction evs as [|ev evs IH]; intros h HI Hf.
  - exists h. pose proof (inv_index _ _ HI) as Hc.
    pose proof (periods_left_range (_transition_index (widget h))) as Hp.
    cbn [run ticks]. cbv zeta. split_and!; try assumption; try reflexivity.
    + rewrite Z.min_l by lia. cbn. lia.
    + rewrite Z.min_l by lia. reflexivity.
    + intros _. split; [|reflexivity].
      rewrite Z.add_0_r. symmetry. apply Z.mod_small. lia.
    + lia.
  - pose proof (ticks_nonneg evs) as Hn.
    pose proof (inv_index _ _ HI) as Hc.
    destruct ev; cbn [ticks].
    + destruct (host_step_ticked animate h HI) as (h1 & Hs & Ht).
      destruct (Inv_step animate h Elapse HI) as (h1' & Hs' & HI1).
      rewrite Hs in Hs'. injection Hs' as <-.
      cbn [run]. rewrite Hs.
      inversion Ht as [Hclk Heq | h' Hclk Hg Hw Hscr Hclk' | d h' Hclk Hg Hd Hw Hscr Hclk'];
        subst.
      * (* no timer runs *)
        pose proof (inv_rest _ _ HI Hclk) as Hz.
        destruct (IH h1 HI Hf) as (h2 & Hr & HI2 & Hf2 & Hlen & Hdots & Hle & Hgt).
        rewrite Hz in *. rewrite periods_left_0 in *.
        exists h2. cbv zeta. split_and!; try assumption.
        -- rewrite Hlen. rewrite !Z.min_r by lia. reflexivity.
        -- rewrite Hdots. rewrite !Z.min_r by lia. reflexivity.
        -- lia.
        -- intros _. destruct (Z.eq_dec (ticks evs) 0) as [E|E].
           ++ destruct Hle as [-> ->]; [lia|]. rewrite E. split; [|reflexivity].
              exact Hclk.
           ++ apply Hgt. lia.
      * (* the stop branch *)
        apply andb_true_iff in Hg as [_ Hz]. apply Z.eqb_eq in Hz.
        assert (Hf1 : _freeze_requested (widget h1) = true)
          by (rewrite Hw; exact Hf).
        assert (Hz1 : _transition_index (widget h1) = 0)
          by (rewrite Hw; exact Hz).
        assert (Hd1 : _dots (widget h1) = _dots (widget h))
          by (rewrite Hw; reflexivity).
        destruct (IH h1 HI1 Hf1) as (h2 & Hr & HI2 & Hf2 & Hlen & Hdots & Hle & Hgt).
        rewrite Hz1, Hd1, Hscr in *. rewrite Hz in *.
        rewrite periods_left_0 in *.
        exists h2. cbv zeta. split_and!; try assumption.
        -- rewrite Hlen. rewrite !Z.min_r by lia. reflexivity.
        -- rewrite Hdots. rewrite !Z.min_r by lia. reflexivity.
        -- lia.
        -- intros _. destruct (Z.eq_dec (ticks evs) 0) as [E|E].
           ++ destruct Hle as [-> ->]; [lia|]. rewrite E. split; [|reflexivity].
              exact Hclk'.
           ++ apply Hgt. lia.
      * (* a frame is applied *)
        unfold at_rest in Hg. rewrite Hf in Hg. cbn in Hg.
        apply Z.eqb_neq in Hg.
        set (c := _transition_index (widget h)) in *.
        assert (Hf1 : _freeze_requested (widget h1) = true)
          by (rewrite Hw; exact Hf).
        assert (Hc1 : _transition_index (widget h1) = (c + 1) mod 26)
          by (rewrite Hw; reflexivity).
        assert (Hd1 : _dots (widget h1) = apply_delta (_dots (widget h)) d)
          by (rewrite Hw; reflexivity).
        assert (Hl1 : length (screen h1) = S (length (screen h)))
          by (rewrite Hscr, length_app; cbn; lia).
        rewrite getitem_front in Hd by (rewrite len_TRANSITIONS; lia).
        destruct (IH h1 HI1 Hf1)
          as (h2 & Hr & HI2 & Hf2 & Hlen & Hdots & Hle & Hgt).
        rewrite Hc1, Hd1, Hl1 in *. clear Hc1 Hd1 Hl1.
        rewrite (periods_left_pos c) by lia.
        exists h2. cbv zeta.
        destruct (Z.eq_dec c 25) as [E|E].
        -- rewrite E in *.
           change ((25 + 1) mod 26) with 0 in *.
           rewrite periods_left_0 in *.
           rewrite Z.min_r in Hlen, Hdots by lia.
           split_and!; try assumption.
           ++ rewrite Hlen. replace (Z.to_nat ((1 + ticks evs) `min` (26 - 25)))
                with 1%nat by lia. cbn. lia.
           ++ rewrite Hdots. replace (Z.to_nat ((1 + ticks evs) `min` (26 - 25)))
                with 1%nat by lia.
              rewrite (drop_S _ _ _ Hd). reflexivity.
           ++ intros Hn'. destruct Hle as [-> ->]; [lia|].
              replace (ticks evs) with 0 by lia. split; [reflexivity|].
              congruence.
           ++ intros Hn'. apply Hgt. lia.
        -- rewrite (Z.mod_small (c + 1)) in * by lia.
           rewrite (periods_left_pos (c + 1)) in * by lia.
           replace (Z.to_nat ((1 + ticks evs) `min` (26 - c)))
             with (S (Z.to_nat (ticks evs `min` (26 - (c + 1))))) by lia.
           split_and!; try assumption.
           ++ rewrite Hlen. lia.
           ++ rewrite Hdots. rewrite (drop_S _ _ _ Hd).
              replace (Z.to_nat (c + 1)) with (S (Z.to_nat c)) by lia.
              reflexivity.
           ++ intros Hn'. destruct Hle as [-> ->]; [lia|].
              split; [f_equal; lia|congruence].
           ++ intros Hn'. apply Hgt. lia.
    + cbn [run host_step]. rewrite (freeze_frozen h Hf).
      apply IH; assumption.
Qed.

(* --------------------------------------------------------------------- *)
(* Runs with no timer                                                     *)
(* --------------------------------------------------------------------- *)

Lemma idle_run (evs : list event) :
  ∀ h, clock h = false →
  ∃ h2, run evs h = Some h2 ∧ clock h2 = false ∧ screen h2 = screen h ∧
    _dots (widget h2) = _dots (widget h) ∧
    _transition_index (widget h2) = _transition_index (widget h) ∧
    _timer (widget h2) = _timer (widget h).
Proof.
  induction evs as [|ev evs IH]; intros h Hclk.
  - exists h. cbn. split_and!; reflexivity || assumption.
  - destruct ev; cbn [run host_step].
    + rewrite Hclk. apply IH. exact Hclk.
    + destruct (IH (freeze h) Hclk) as (h2 & Hr & ? & ? & ? & ? & ?).
      exists h2. split_and!; assumption.
Qed.

(* --------------------------------------------------------------------- *)
(* Bounds of the authored data                                            *)
(* --------------------------------------------------------------------- *)

Lemma initial_dots_in_bounds : set_Forall in_bounds initial_dots.
Proof. apply (bool_decide_unpack _). vm_compute. exact I. Qed.

Lemma TRANSITIONS_in_bounds :
  Forall (λ d, set_Forall in_bounds (remove d) ∧ set_Forall in_bounds (add d))
         TRANSITIONS.
Proof. apply (bool_decide_unpack _). vm_compute. exact I. Qed.

Lemma apply_delta_in_bounds (dots : gset complex) (d : delta) :
  set_Forall in_bounds dots → set_Forall in_bounds (add d) →
  set_Forall in_bounds (apply_delta dots d).
Proof.
  intros Hdots Hadd c Hc. unfold apply_delta in Hc.
  apply elem_of_union in Hc as [Hc|Hc].
  - apply Hdots. apply elem_of_difference in Hc as [Hc _]. exact Hc.
  - apply Hadd. exact Hc.
Qed.

Lemma apply_all_in_bounds (ds : list delta) :
  ∀ dots, set_Forall in_bounds dots →
  Forall (λ d, set_Forall in_bounds (remove d) ∧ set_Forall in_bounds (add d)) ds →
  set_Forall in_bounds (apply_all ds dots).
Proof.
  induction ds as [|d ds IH]; intros dots Hdots Hds; cbn.
  - exact Hdots.
  - inversion Hds as [|? ? [_ Hadd] Hrest]; subst.
    apply IH; [|exact Hrest].
    apply apply_delta_in_bounds; assumption.
Qed.

Lemma pose_at_in_bounds (i : Z) : set_Forall in_bounds (pose_at i).
Proof.
  unfold pose_at. apply apply_all_in_bounds.
  - apply initial_dots_in_bounds.
  - apply Forall_take. apply TRANSITIONS_in_bounds.
Qed.

(* --------------------------------------------------------------------- *)
(* The renderer                                                           *)
(* --------------------------------------------------------------------- *)

Lemma length_range (n : Z) : length (range n) = Z.to_nat n.
Proof. unfold range. rewrite length_map, length_seq. reflexivity. Qed.

Lemma ceil_div_spec (a b : Z) :
  0 < b → b * (ceil_div a b - 1) < a <= b * ceil_div a b.
Proof.
  intros Hb. unfold ceil_div.
  pose proof (Z.div_mod (- a) b) as Hdm.
  pose proof (Z.mod_pos_bound (- a) b Hb) as Hr.
  lia.
Qed.

Lemma ceil_div_nonneg (a b : Z) : 0 <= a → 0 < b → 0 <= ceil_div a b.
Proof.
  intros Ha Hb. pose proof (ceil_div_spec a b Hb) as Hs.
  destruct (Z.le_gt_cases 0 (ceil_div a b)) as [|Hneg]; [assumption|].
  exfalso. nia.
Qed.

Lemma length_render_rows (dots : gset complex) (width height : Z) :
  length (render_rows dots width height) = Z.to_nat (ceil_div height 4).
Proof. unfold render_rows. rewrite length_map. apply length_range. Qed.

Lemma width_render_rows (dots : gset complex) (width height : Z) :
  Forall (λ r : text, length r = Z.to_nat (ceil_div width 2))
         (render_rows dots width height).
Proof.
  unfold render_rows. apply Forall_map, Forall_forall. intros cr _. cbn.
  rewrite length_map. apply length_range.
Qed.

Lemma light_nonneg (dots : gset complex) (width height cr cc : Z)
    (l : list (Z * Z * Z)) :
  ∀ mask, 0 <= mask → 0 <= fold_left (light dots width height cr cc) l mask.
Proof.
  induction l as [|[[dr dc] bit] l IH]; intros mask Hm; cbn; [exact Hm|].
  apply IH. destruct (dot_lit _ _ _ _ _); [|exact Hm].
  apply Z.lor_nonneg. split; [exact Hm|]. apply Z.shiftl_nonneg. lia.
Qed.

Lemma cell_char_ge_base (dots : gset complex) (width height cr cc : Z) :
  BRAILLE_BASE <= cell_char dots width height cr cc.
Proof.
  unfold cell_char, cell_mask.
  pose proof (light_nonneg dots width height cr cc DOT_BITS 0). lia.
Qed.

Lemma render_rows_no_newline (dots : gset complex) (width height : Z) :
  Forall (Forall (λ ch, ch ≠ NEWLINE)) (render_rows dots width height).
Proof.
  unfold render_rows. apply Forall_map, Forall_forall. intros cr _. cbn.
  apply Forall_map, Forall_forall. intros cc _. cbn.
  pose proof (cell_char_ge_base dots width height cr cc) as Hge.
  unfold BRAILLE_BASE, NEWLINE in *. lia.
Qed.

Lemma light_empty (width height cr cc : Z) (l : list (Z * Z * Z)) :
  ∀ mask, fold_left (light ∅ width height cr cc) l mask = mask.
Proof.
  induction l as [|[[dr dc] bit] l IH]; intros mask; cbn; [reflexivity|].
  unfold dot_lit. rewrite bool_decide_eq_false_2 by apply not_elem_of_empty.
  cbn. apply IH.
Qed.

Lemma render_rows_empty (width height : Z) :
  Forall (Forall (λ ch, ch = BRAILLE_BASE ∧ ch ≠ SPACE))
         (render_rows ∅ width height).
Proof.
  unfold render_rows. apply Forall_map, Forall_forall. intros cr _. cbn.
  apply Forall_map, Forall_forall. intros cc _. cbn.
  unfold cell_char, cell_mask. rewrite light_empty.
  split; [reflexivity|discriminate].
Qed.

Lemma split_lines_plain (r : text) :
  Forall (λ ch, ch ≠ NEWLINE) r → split_lines r = [r].
Proof.
  induction 1 as [|ch r Hch _ IH]; cbn; [reflexivity|].
  destruct (Z.eqb_spec ch NEWLINE); [contradiction|].
  rewrite IH. reflexivity.
Qed.

Lemma split_lines_break (r rest : text) :
  Forall (λ ch, ch ≠ NEWLINE) r →
  split_lines (r ++ NEWLINE :: rest) = r :: split_lines rest.
Proof.
  induction 1 as [|ch r Hch _ IH]; cbn; [reflexivity|].
  destruct (Z.eqb_spec ch NEWLINE); [contradiction|].
  rewrite IH. reflexivity.
Qed.

Lemma split_join_lines (rows : list text) :
  rows ≠ [] → Forall (Forall (λ ch, ch ≠ NEWLINE)) rows →
  split_lines (join_lines rows) = rows.
Proof.
  induction rows as [|r rows IH]; intros Hne Hrows; [contradiction|].
  inversion Hrows as [|? ? Hr Hrest]; subst.
  destruct rows as [|r' rows'].
  - cbn. apply split_lines_plain. exact Hr.
  - change (join_lines (r :: r' :: rows'))
      with (r ++ NEWLINE :: join_lines (r' :: rows')).
    rewrite split_lines_break by exact Hr.
    rewrite IH; [reflexivity|discriminate|exact Hrest].
Qed.

Lemma render_braille_block (dots : gset complex) (width height : Z) :
  is_block (render_braille dots width height) (render_rows dots width height).
Proof.
  split; [reflexivity|]. split; [apply render_rows_no_newline|].
  intros Hne. apply split_join_lines; [exact Hne|].
  apply render_rows_no_newline.
Qed.

(* --------------------------------------------------------------------- *)
(* Concrete checks of the embedding                                       *)
(* --------------------------------------------------------------------- *)

Example initial_dots_size : size initial_dots = 72%nat.
Proof. apply (bool_decide_unpack _). vm_compute. exact I. Qed.

Example initial_dots_row_1 :
  filter (λ c, row c = 1) initial_dots = dots_of [J 1 6; J 1 7; J 1 15; J 1 19].
Proof. apply (bool_decide_unpack _). vm_compute. exact I. Qed.

Example getitem_last : getitem [10; 20; 30] (-1) = Some 30.
Proof. reflexivity. Qed.

Example getitem_beyond : getitem [10; 20; 30] 3 = None.
Proof. reflexivity. Qed.

Example first_period :
  (λ h, (_transition_index (widget h), _dots (widget h), length (screen h)))
    <$> run [Elapse] (mount true)
  = Some (1, initial_dots ∖ dots_of [J 5 16; J 5 18], 2%nat).
Proof. apply (bool_decide_unpack _). vm_compute. exact I. Qed.

Example second_period_restores_the_eyes :
  (λ h, _dots (widget h)) <$> run [Elapse; Elapse] (mount true)
  = Some initial_dots.
Proof. apply (bool_decide_unpack _). vm_compute. exact I. Qed.

(* The 4 x 4 grid of two cells: empty, with its top-left dot, and with the
   left column of the first cell lit (bits 0, 1, 2 and 6). *)
Example render_empty_4x4 :
  render_braille ∅ 4 4 = [BRAILLE_BASE; BRAILLE_BASE].
Proof. reflexivity. Qed.

Example render_top_left_4x4 :
  render_braille {[ J 0 0 ]} 4 4 = [BRAILLE_BASE + 1; BRAILLE_BASE].
Proof. apply (bool_decide_unpack _). vm_compute. exact I. Qed.

Example render_left_column_4x4 :
  render_braille (dots_of [J 0 0; J 1 0; J 2 0; J 3 0]) 4 4
  = [BRAILLE_BASE + 71; BRAILLE_BASE].
Proof. apply (bool_decide_unpack _). vm_compute. exact I. Qed.

Example render_partial_cells_3x5 :
  split_lines (render_braille (dots_of [J 4 2; J 0 1]) 3 5)
  = [[BRAILLE_BASE + 8; BRAILLE_BASE]; [BRAILLE_BASE; BRAILLE_BASE + 1]].
Proof. apply (bool_decide_unpack _). vm_compute. exact I. Qed.

(* --------------------------------------------------------------------- *)
(* The animation loop is closed                                           *)
(* --------------------------------------------------------------------- *)

(** C1, as amended: TRANSITIONS holds 26 frames, and applying all of them in
    order, each as (state - remove) | add, to the initial dot set built
    from STARTING_DOTS gives back exactly the initial dot set. *)
Theorem C1_closure :
  len TRANSITIONS = 26 ∧ apply_all TRANSITIONS initial_dots = initial_dots.
Proof. split; [reflexivity|apply closure_full]. Qed.

(** C1 as stated, with N = 25, fails: the table does not have 25 frames,
    and the first 25 frames do not lead back to the initial dot set. *)
Lemma C1_not_25_frames :
  len TRANSITIONS ≠ 25 ∧
  apply_all (take 25 TRANSITIONS) initial_dots ≠ initial_dots.
Proof.
  split; [discriminate|].
  apply (bool_decide_eq_false_1 _). vm_compute. reflexivity.
Qed.

(* --------------------------------------------------------------------- *)
(* Applying one frame                                                     *)
(* --------------------------------------------------------------------- *)

(** C4, as amended: applying a frame is a total function of the dot set; a
    coordinate ends up lit exactly when the frame adds it, or it was lit and
    the frame does not remove it.  So a coordinate of [remove] that was
    absent stays absent unless the frame also adds it, in which case it is
    lit afterwards; and a coordinate of [add] that was already lit stays
    lit. *)
Theorem C4_apply_delta_membership (dots : gset complex) (d : delta)
    (c : complex) :
  (c ∈ apply_delta dots d ↔ (c ∈ dots ∧ c ∉ remove d) ∨ c ∈ add d) ∧
  (c ∈ remove d → c ∉ dots → c ∉ add d → c ∉ apply_delta dots d) ∧
  (c ∈ remove d → c ∉ dots → c ∈ add d → c ∈ apply_delta dots d) ∧
  (c ∈ add d → c ∈ dots → c ∈ apply_delta dots d).
Proof.
  unfold apply_delta. rewrite elem_of_union, elem_of_difference. tauto.
Qed.

(** C4 as stated fails: 7j+18 is in the [remove] set of HEAD_UP and absent
    from the empty dot set, yet lit once HEAD_UP is applied, because HEAD_UP
    also adds it. *)
Lemma C4_removed_yet_lit :
  (J 7 18 ∈ remove HEAD_UP) ∧ (J 7 18 ∉ (∅ : gset complex)) ∧
  (J 7 18 ∈ apply_delta ∅ HEAD_UP).
Proof.
  split_and!.
  - apply (bool_decide_unpack _). vm_compute. exact I.
  - apply not_elem_of_empty.
  - apply (bool_decide_unpack _). vm_compute. exact I.
Qed.

(** A use of C4 on a frame of the table: 1j+6 is removed by
    QUEUE_RIGHT_TO_MID, not added by it, and absent from the empty set. *)
Lemma C4_apply_delta_membership_witness :
  J 1 6 ∉ apply_delta ∅ QUEUE_RIGHT_TO_MID.
Proof.
  apply (proj1 (proj2 (C4_apply_delta_membership ∅ QUEUE_RIGHT_TO_MID (J 1 6)))).
  - apply (bool_decide_unpack _). vm_compute. exact I.
  - apply not_elem_of_empty.
  - apply (bool_decide_eq_false_1 _). vm_compute. reflexivity.
Defined.

(* --------------------------------------------------------------------- *)
(* One period of the timer                                                *)
(* --------------------------------------------------------------------- *)

(** C3: in every reachable state the index is a position of TRANSITIONS
    and a call of the timer callback returns.  When a freeze has been
    requested and the index is 0 it leaves the dot set and the index as
    they are (it clears the timer handle and stops the timer); otherwise
    it replaces the dot set by (dots - d.remove) | d.add for d the frame at
    position index of TRANSITIONS, sets the index to
    (index + 1) mod len(TRANSITIONS) and hands the rendering of the new dot
    set to the display.  The frame is applied whole or not at all, the
    flags are never touched, and the timer handle only by the stop. *)
Theorem C3_tick_step (animate : bool) (h : Host) :
  reachable animate h → tick_contract h.
Proof.
  intros Hr. pose proof (reachable_Inv _ _ Hr) as HI.
  pose proof (inv_index _ _ HI) as Hi.
  unfold tick_contract. cbv zeta.
  split; [rewrite len_TRANSITIONS; exact Hi|].
  destruct (_freeze_requested (widget h) && (_transition_index (widget h) =? 0))
    eqn:Hg.
  - pose proof Hg as Hg'. apply andb_true_iff in Hg' as [Hf Hz].
    apply Z.eqb_eq in Hz.
    pose proof (tick_stop (widget h) Hf Hz) as Hcall.
    eexists _, _. split; [exact Hcall|].
    split; [reflexivity|]. split; [reflexivity|]. split.
    + left. split; [exact Hf|]. split; [exact Hz|].
      split; [reflexivity|]. split; [reflexivity|]. split; reflexivity.
    + split.
      * intros Hclk. unfold host_step. rewrite Hcall, Hclk. reflexivity.
      * intros Hclk. unfold host_step. rewrite Hclk. reflexivity.
  - destruct (getitem_total TRANSITIONS (_transition_index (widget h)))
      as (d & Hd & Hl).
    { rewrite len_TRANSITIONS. exact Hi. }
    pose proof (tick_apply (widget h) d Hg Hd) as Hcall.
    eexists _, _. split; [exact Hcall|].
    split; [reflexivity|]. split; [reflexivity|]. split.
    + right. split.
      * intros [Hf Hz]. rewrite Hf, Hz in Hg. discriminate.
      * exists d. split; [exact Hl|]. split; [reflexivity|].
        split; [reflexivity|]. split; reflexivity.
    + split.
      * intros Hclk. unfold host_step. rewrite Hcall, Hclk. reflexivity.
      * intros Hclk. unfold host_step. rewrite Hclk. reflexivity.
Qed.

(* At index 3, three periods after mount, the callback applies
   QUEUE_RIGHT_TO_MID, the frame at position 3, and moves on to index 4;
   with a freeze requested right after mount it takes the stop branch. *)
Lemma C3_tick_step_witness :
  (reachable true (after (replicate 3 Elapse) (mount true)) ∧
   tick_contract (after (replicate 3 Elapse) (mount true)) ∧
   _transition_index (widget (after (replicate 3 Elapse) (mount true))) = 3 ∧
   TRANSITIONS !! 3%nat = Some QUEUE_RIGHT_TO_MID ∧
   ∃ h4, host_step (after (replicate 3 Elapse) (mount true)) Elapse = Some h4 ∧
     _dots (widget h4) =
       (_dots (widget (after (replicate 3 Elapse) (mount true)))
          ∖ remove QUEUE_RIGHT_TO_MID) ∪ add QUEUE_RIGHT_TO_MID ∧
     _transition_index (widget h4) = 4) ∧
  (reachable true (freeze (mount true)) ∧
   tick_contract (freeze (mount true))).
Proof.
  assert (Hr : reachable true (after (replicate 3 Elapse) (mount true))).
  { apply reachable_after. apply reachable_mount. }
  assert (Hi : _transition_index
                 (widget (after (replicate 3 Elapse) (mount true))) = 3).
  { vm_compute. reflexivity. }
  assert (Hclk : clock (after (replicate 3 Elapse) (mount true)) = true).
  { vm_compute. reflexivity. }
  assert (Hrf : reachable true (freeze (mount true))).
  { apply (reachable_step true (mount true) Freeze); [|reflexivity].
    apply reachable_mount. }
  pose proof (C3_tick_step true _ Hr) as Hc.
  split; [|split; [exact Hrf|exact (C3_tick_step true _ Hrf)]].
  split; [exact Hr|]. split; [exact Hc|]. split; [exact Hi|].
  split; [reflexivity|].
  destruct Hc as (_ & self' & effects & _ & _ & _ & Hcase & Hrun & _).
  exists (perform_all
            (with_widget (after (replicate 3 Elapse) (mount true)) self')
            effects).
  split; [exact (Hrun Hclk)|].
  destruct Hcase as [(_ & Hz & _) | (_ & d & Hd & Hdots & Hidx & _ & Heff)].
  - rewrite Hi in Hz. discriminate.
  - rewrite Hi in Hd, Hidx. cbn in Hd. injection Hd as <-.
    rewrite Heff. cbn. split; [exact Hdots|exact Hidx].
Defined.

(* --------------------------------------------------------------------- *)
(* Bounds                                                                 *)
(* --------------------------------------------------------------------- *)

(** C6: every coordinate of the initial dot set, of every remove and add
    set of every frame of TRANSITIONS, and of the dot set of every
    reachable state, has 0 <= row < 12 (HEIGHT) and 0 <= column < 22
    (WIDTH). *)
Theorem C6_coordinates_in_bounds (animate : bool) (h : Host) :
  reachable animate h → bounds_contract h.
Proof.
  intros Hr. pose proof (reachable_Inv _ _ Hr) as HI.
  unfold bounds_contract. split_and!.
  - apply initial_dots_in_bounds.
  - intros d c Hd Hc.
    pose proof TRANSITIONS_in_bounds as Hall.
    rewrite Forall_forall in Hall. destruct (Hall d Hd) as [Hrm Hadd].
    destruct Hc as [Hc|Hc]; [apply Hrm|apply Hadd]; exact Hc.
  - rewrite (inv_dots _ _ HI). apply pose_at_in_bounds.
Qed.

Lemma C6_coordinates_in_bounds_witness :
  reachable true (mount true) ∧ bounds_contract (mount true).
Proof.
  split; [apply reachable_mount|].
  apply (C6_coordinates_in_bounds true (mount true)). apply reachable_mount.
Defined.

(* --------------------------------------------------------------------- *)
(* The index                                                              *)
(* --------------------------------------------------------------------- *)

Lemma step_cases (animate : bool) (h : Host) (ev : event) :
  Inv animate h →
  ∃ h', host_step h ev = Some h' ∧ Inv animate h' ∧
    if applies h ev then
      screen h' =
        screen h ++ [render_braille (_dots (widget h')) WIDTH HEIGHT] ∧
      _transition_index (widget h') =
        (_transition_index (widget h) + 1) mod len TRANSITIONS ∧
      ∃ d, getitem TRANSITIONS (_transition_index (widget h)) = Some d ∧
           _dots (widget h') = apply_delta (_dots (widget h)) d
    else
      screen h' = screen h ∧
      _transition_index (widget h') = _transition_index (widget h) ∧
      _dots (widget h') = _dots (widget h).
Proof.
  intros HI. destruct (Inv_step animate h ev HI) as (h' & Hs & HI').
  exists h'. split; [exact Hs|]. split; [exact HI'|].
  destruct ev; cbn [applies].
  - destruct (host_step_ticked animate h HI) as (h1 & Hs1 & Ht).
    rewrite Hs in Hs1. injection Hs1 as <-.
    inversion Ht as [Hclk Heq | h1 Hclk Hg Hw Hscr Hclk'
                    | d h1 Hclk Hg Hd Hw Hscr Hclk']; subst.
    + rewrite Hclk. cbn. split_and!; reflexivity.
    + rewrite Hclk, Hg. cbn. rewrite Hw. cbn. split_and!; [exact Hscr|..]; reflexivity.
    + rewrite Hclk, Hg. cbn. split; [exact Hscr|]. rewrite Hw. cbn.
      split; [reflexivity|]. exists d. split; [exact Hd|reflexivity].
  - cbn in Hs. injection Hs as <-. cbn. split_and!; reflexivity.
Qed.

(** C5, as amended: the index is 0 at construction and at mount; the table
    has 26 frames; in every reachable state, and after every event from it,
    the index is an integer of [0, 26); and it moves, to (index + 1) mod 26,
    exactly with the events that apply a frame, staying put with all
    others. *)
Theorem C5_cursor_invariant (animate : bool) (h : Host) (ev : event) :
  reachable animate h → cursor_contract animate h ev.
Proof.
  intros Hr. pose proof (reachable_Inv _ _ Hr) as HI.
  unfold cursor_contract.
  split; [reflexivity|]. split; [destruct animate; reflexivity|].
  split; [reflexivity|]. split.
  - rewrite len_TRANSITIONS. apply (inv_index _ _ HI).
  - destruct (step_cases animate h ev HI) as (h' & Hs & HI' & Hc).
    exists h'. split; [exact Hs|]. split.
    + rewrite len_TRANSITIONS. apply (inv_index _ _ HI').
    + destruct (applies h ev).
      * destruct Hc as (_ & Hi & Hd). split; assumption.
      * destruct Hc as (_ & Hi & Hd). split; assumption.
Qed.

Lemma C5_cursor_invariant_witness :
  reachable true (mount true) ∧ cursor_contract true (mount true) Elapse.
Proof.
  split; [apply reachable_mount|].
  apply (C5_cursor_invariant true (mount true) Elapse). apply reachable_mount.
Defined.

(** C5 as stated, with N = 25, fails: after 25 periods the index is 25,
    which is outside [0, 25). *)
Lemma C5_index_reaches_25 :
  ∃ h, run (replicate 25 Elapse) (mount true) = Some h ∧
       reachable true h ∧ _transition_index (widget h) = 25 ∧
       ¬ (0 <= _transition_index (widget h) < 25).
Proof.
  assert (Hi : (λ h, _transition_index (widget h)) <$>
               run (replicate 25 Elapse) (mount true) = Some 25).
  { vm_compute. reflexivity. }
  destruct (run (replicate 25 Elapse) (mount true)) as [h|] eqn:Hrun;
    [|discriminate].
  injection Hi as Hi. exists h. split_and!.
  - reflexivity.
  - apply (reachable_run true (replicate 25 Elapse) (mount true));
      [apply reachable_mount|exact Hrun].
  - exact Hi.
  - rewrite Hi. lia.
Qed.

(* --------------------------------------------------------------------- *)
(* At rest                                                                *)
(* --------------------------------------------------------------------- *)

Lemma idle_screen (h : Host) :
  reachable false h → screen h = [render_braille initial_dots WIDTH HEIGHT].
Proof.
  induction 1 as [|h ev h' Hr IH Hs]; [reflexivity|].
  pose proof (inv_idle _ _ (reachable_Inv _ _ Hr) eq_refl) as Hclk.
  destruct ev; cbn in Hs.
  - rewrite Hclk in Hs. injection Hs as <-. exact IH.
  - injection Hs as <-. exact IH.
Qed.

(** C7: once the stop branch of the callback has run, the timer is stopped
    and cleared, and whatever events follow (the widget has no operation
    to resume) the dot set, the index and the display stay as they are;
    and a widget constructed with animate = False starts no timer and
    keeps the initial pose, index 0 and the text shown at mount, in every
    state it can reach. *)
Theorem C7_stopped_is_absorbing (animate : bool) (h : Host)
    (evs : list event) :
  reachable animate h → rest_contract animate h evs.
Proof.
  intros Hr. pose proof (reachable_Inv _ _ Hr) as HI.
  unfold rest_contract. split.
  - intros Hclk Hg.
    destruct (host_step_ticked animate h HI) as (h1 & Hs & Ht).
    exists h1. split; [exact Hs|].
    inversion Ht as [Hclk0 Heq | h1' Hclk0 Hg0 Hw Hscr Hclk'
                    | d h1' Hclk0 Hg0 Hd Hw Hscr Hclk']; subst.
    + congruence.
    + assert (Ht1 : _timer (widget h1) = None) by (rewrite Hw; reflexivity).
      split; [exact Hclk'|]. split; [exact Ht1|].
      destruct (idle_run evs h1 Hclk') as (h2 & Hrun & Hc2 & Hs2 & Hd2 & Hi2 & Ht2).
      exists h2. split_and!; try assumption. congruence.
    + congruence.
  - intros ->. split_and!.
    + reflexivity.
    + reflexivity.
    + apply (inv_idle _ _ HI). reflexivity.
    + rewrite (inv_timer _ _ HI). rewrite (inv_idle _ _ HI eq_refl). reflexivity.
    + apply (inv_rest _ _ HI). apply (inv_idle _ _ HI). reflexivity.
    + rewrite (inv_dots _ _ HI).
      rewrite (inv_rest _ _ HI (inv_idle _ _ HI eq_refl)). reflexivity.
    + apply idle_screen. exact Hr.
Qed.

Lemma C7_stopped_is_absorbing_witness :
  (reachable true (freeze (mount true)) ∧
   rest_contract true (freeze (mount true)) [Elapse; Freeze; Elapse]) ∧
  (reachable false (mount false) ∧
   rest_contract false (mount false) [Elapse; Freeze; Elapse]).
Proof.
  split; split.
  - apply (reachable_step true (mount true) Freeze); [apply reachable_mount|].
    reflexivity.
  - apply (C7_stopped_is_absorbing true (freeze (mount true))).
    apply (reachable_step true (mount true) Freeze); [apply reachable_mount|].
    reflexivity.
  - apply reachable_mount.
  - apply (C7_stopped_is_absorbing false (mount false)). apply reachable_mount.
Defined.

(* --------------------------------------------------------------------- *)
(* What reaches the display                                               *)
(* --------------------------------------------------------------------- *)

(** C8, as amended: mounting hands the display exactly one text, the
    rendering of the initial dot set, before any period of the timer; from
    then on a period that applies a frame hands it exactly one more text,
    the rendering of the new dot set, while a period that applies none (the
    one on which the animator stops, or any without a running timer) and a
    freeze request hand it nothing; the last text handed is always the
    rendering of the current dot set. *)
Theorem C8_output_cadence (animate : bool) (h : Host) :
  reachable animate h → output_contract animate h.
Proof.
  intros Hr. pose proof (reachable_Inv _ _ Hr) as HI.
  unfold output_contract. split_and!.
  - destruct animate; reflexivity.
  - apply (inv_screen _ _ HI).
  - reflexivity.
  - destruct (step_cases animate h Elapse HI) as (h' & Hs & _ & Hc).
    exists h'. split; [exact Hs|].
    destruct (applies h Elapse); destruct Hc as (Hscr & _); exact Hscr.
Qed.

Lemma C8_output_cadence_witness :
  reachable true (mount true) ∧ output_contract true (mount true).
Proof.
  split; [apply reachable_mount|].
  apply (C8_output_cadence true (mount true)). apply reachable_mount.
Defined.

(** C8 as stated fails: with a freeze requested right after mount, the
    timer is running, its next period runs the callback, which stops the
    animator, and the display is handed nothing on that period. *)
Lemma C8_stopping_tick_is_silent :
  reachable true (freeze (mount true)) ∧
  clock (freeze (mount true)) = true ∧
  ∃ h', host_step (freeze (mount true)) Elapse = Some h' ∧
        clock h' = false ∧ screen h' = screen (freeze (mount true)).
Proof.
  split_and!.
  - apply (reachable_step true (mount true) Freeze); [apply reachable_mount|].
    reflexivity.
  - reflexivity.
  - eexists. split; [reflexivity|]. split; reflexivity.
Qed.

(* --------------------------------------------------------------------- *)
(* The freeze request                                                     *)
(* --------------------------------------------------------------------- *)

Lemma Inv_freeze (animate : bool) (h : Host) :
  Inv animate h → Inv animate (freeze h).
Proof.
  intros HI. destruct (Inv_step animate h Freeze HI) as (h' & Hs & HI').
  cbn in Hs. injection Hs as <-. exact HI'.
Qed.

Lemma free_run (n : nat) :
  ∀ h, Inv true h → _freeze_requested (widget h) = false →
  ∃ h2, run (replicate n Elapse) h = Some h2 ∧ Inv true h2 ∧
    _freeze_requested (widget h2) = false ∧ clock h2 = true ∧
    _transition_index (widget h2) =
      (_transition_index (widget h) + Z.of_nat n) mod 26 ∧
    length (screen h2) = (length (screen h) + n)%nat.
Proof.
  induction n as [|n IH]; intros h HI Hf.
  - exists h. pose proof (inv_index _ _ HI) as Hc. cbn [replicate run].
    split; [reflexivity|]. split; [exact HI|]. split; [exact Hf|].
    split.
    + destruct (clock h) eqn:Hclk; [reflexivity|].
      rewrite (inv_stopped _ _ HI eq_refl Hclk) in Hf. discriminate.
    + split; [|lia]. rewrite Z.add_0_r. symmetry. apply Z.mod_small. exact Hc.
  - destruct (step_cases true h Elapse HI) as (h1 & Hs & HI1 & Hc1).
    assert (Hclk : clock h = true).
    { destruct (clock h) eqn:Hclk; [reflexivity|].
      rewrite (inv_stopped _ _ HI eq_refl Hclk) in Hf. discriminate. }
    assert (Happ : applies h Elapse = true).
    { cbn. unfold at_rest. rewrite Hclk, Hf. reflexivity. }
    rewrite Happ in Hc1. destruct Hc1 as (Hscr & Hi1 & d & Hd & Hdots).
    assert (Hf1 : _freeze_requested (widget h1) = false).
    { destruct (host_step_ticked true h HI) as (h1' & Hs' & Ht).
      rewrite Hs in Hs'. injection Hs' as <-.
      inversion Ht as [Hc0 | h' Hc0 Hg Hw _ _ | d' h' Hc0 Hg Hd' Hw _ _]; subst.
      - exact Hf.
      - rewrite Hw. exact Hf.
      - rewrite Hw. exact Hf. }
    destruct (IH h1 HI1 Hf1) as (h2 & Hrun & HI2 & Hf2 & Hclk2 & Hi2 & Hl2).
    exists h2. cbn [replicate run]. rewrite Hs.
    split; [exact Hrun|]. split; [exact HI2|]. split; [exact Hf2|].
    split; [exact Hclk2|]. split.
    + rewrite Hi2, Hi1, len_TRANSITIONS.
      rewrite Zplus_mod_idemp_l. f_equal. lia.
    + rewrite Hl2, Hscr, length_app. cbn. lia.
Qed.

(** C2: freeze_animation() can be called at every value of the index: each
    index of [0, len(TRANSITIONS)) is that of a reachable state whose timer
    runs.  After freeze_animation(), called at any value of the index c and
    followed by any events (further freeze requests included), the timer's
    periods keep applying the frames c, c+1, ... as long as the index has
    not come back to 0; the first period that finds the index at 0 stops
    and clears the timer; from then on the dot set is the initial pose and
    the index 0, whatever follows; and a second freeze_animation() leaves
    the state of the first. *)
Theorem C2_freeze_boundary (animate : bool) (h : Host) (evs : list event) :
  reachable animate h → freeze_contract h evs.
Proof.
  intros Hr. pose proof (reachable_Inv _ _ Hr) as HI.
  pose proof (Inv_freeze _ _ HI) as HIf.
  pose proof (inv_index _ _ HI) as Hc.
  pose proof (ticks_nonneg evs) as Hn.
  unfold freeze_contract. cbv zeta. split.
  { intros i Hi. rewrite len_TRANSITIONS in Hi.
    destruct (free_run (Z.to_nat i) (mount true) (Inv_mount true) eq_refl)
      as (h0 & Hrun & _ & Hf0 & Hclk0 & Hi0 & _).
    exists h0. split.
    - apply (reachable_run true (replicate (Z.to_nat i) Elapse) (mount true));
        [apply reachable_mount|exact Hrun].
    - split; [exact Hclk0|]. split; [exact Hf0|].
      rewrite Hi0. change (_transition_index (widget (mount true))) with 0.
      rewrite Z2Nat.id by lia. apply Z.mod_small. lia. }
  split; [reflexivity|].
  destruct (frozen_run animate evs (freeze h) HIf eq_refl)
    as (h2 & Hrun & HI2 & Hf2 & Hlen & Hdots & Hle & Hgt).
  cbv zeta in *.
  change (_transition_index (widget (freeze h)))
    with (_transition_index (widget h)) in *.
  change (_dots (widget (freeze h))) with (_dots (widget h)) in *.
  change (clock (freeze h)) with (clock h) in *.
  set (c := _transition_index (widget h)) in *.
  exists h2. split; [exact Hrun|]. split; [|split].
  - intros Hlt. destruct Hle as [-> _]; [lia|].
    destruct (Z.eq_dec c 0) as [E|E].
    + rewrite E, periods_left_0 in Hlt. lia.
    + rewrite periods_left_pos in Hlt by lia.
      rewrite Z.mod_small by lia. lia.
  - intros Hle'. destruct Hle as [Hi Hclk]; [exact Hle'|].
    rewrite Z.min_l in Hdots by exact Hle'.
    rewrite len_TRANSITIONS. split; [exact Hdots|]. split; assumption.
  - intros Hlt. destruct Hgt as [Hclk Hi]; [exact Hlt|].
    split; [exact Hclk|]. split.
    + rewrite (inv_timer _ _ HI2), Hclk. reflexivity.
    + split; [exact Hi|]. rewrite (inv_dots _ _ HI2), Hi. reflexivity.
Qed.

(* A freeze requested at index 23, twenty-three periods after mount.  Over
   events spanning two periods the frames at positions 23 and 24, HEAD_LEFT
   and WAIT, are applied, the dot set changes, the index is 25 and the
   timer still runs; over events spanning four periods the loop has been
   closed and the timer stopped at the initial pose. *)
Lemma C2_freeze_boundary_witness :
  reachable true (after (replicate 23 Elapse) (mount true)) ∧
  _transition_index (widget (after (replicate 23 Elapse) (mount true))) = 23 ∧
  freeze_contract (after (replicate 23 Elapse) (mount true))
                  [Elapse; Freeze; Elapse] ∧
  freeze_contract (after (replicate 23 Elapse) (mount true))
                  [Elapse; Elapse; Freeze; Elapse; Elapse] ∧
  (∃ h2, run [Elapse; Freeze; Elapse]
             (freeze (after (replicate 23 Elapse) (mount true))) = Some h2 ∧
     _transition_index (widget h2) = 25 ∧ clock h2 = true ∧
     _dots (widget h2) =
       apply_all [HEAD_LEFT; WAIT]
         (_dots (widget (after (replicate 23 Elapse) (mount true)))) ∧
     _dots (widget h2) ≠
       _dots (widget (after (replicate 23 Elapse) (mount true)))) ∧
  (∃ h2, run [Elapse; Elapse; Freeze; Elapse; Elapse]
             (freeze (after (replicate 23 Elapse) (mount true))) = Some h2 ∧
     clock h2 = false ∧ _timer (widget h2) = None ∧
     _transition_index (widget h2) = 0 ∧
     _dots (widget h2) = initial_dots).
Proof.
  assert (Hr : reachable true (after (replicate 23 Elapse) (mount true))).
  { apply reachable_after. apply reachable_mount. }
  assert (Hi : _transition_index
                 (widget (after (replicate 23 Elapse) (mount true))) = 23).
  { vm_compute. reflexivity. }
  assert (Hclk : clock (after (replicate 23 Elapse) (mount true)) = true).
  { vm_compute. reflexivity. }
  assert (Hmoved :
    apply_all [HEAD_LEFT; WAIT]
      (_dots (widget (after (replicate 23 Elapse) (mount true)))) ≠
    _dots (widget (after (replicate 23 Elapse) (mount true)))).
  { apply (bool_decide_eq_false_1 _). vm_compute. reflexivity. }
  pose proof (C2_freeze_boundary true _ [Elapse; Freeze; Elapse] Hr) as H2.
  pose proof (C2_freeze_boundary true _
                [Elapse; Elapse; Freeze; Elapse; Elapse] Hr) as H4.
  split; [exact Hr|]. split; [exact Hi|]. split; [exact H2|].
  split; [exact H4|]. split.
  - destruct H2 as (_ & _ & h2 & Hrun & _ & Hle & _).
    cbv zeta in Hle. rewrite Hi in Hle.
    change (ticks [Elapse; Freeze; Elapse]) with 2 in Hle.
    change (periods_left 23) with 3 in Hle.
    destruct Hle as (Hdots & Hidx & Hc2); [lia|].
    exists h2. split; [exact Hrun|]. split; [exact Hidx|].
    split; [rewrite Hc2; exact Hclk|].
    change (take (Z.to_nat 2) (drop (Z.to_nat 23) TRANSITIONS))
      with [HEAD_LEFT; WAIT] in Hdots.
    split; [exact Hdots|]. rewrite Hdots. exact Hmoved.
  - destruct H4 as (_ & _ & h2 & Hrun & _ & _ & Hgt).
    cbv zeta in Hgt. rewrite Hi in Hgt.
    change (ticks [Elapse; Elapse; Freeze; Elapse; Elapse]) with 4 in Hgt.
    change (periods_left 23) with 3 in Hgt.
    exists h2. split; [exact Hrun|]. apply Hgt. lia.
Defined.




(* --------------------------------------------------------------------- *)
(* The shape of the rendering                                             *)
(* --------------------------------------------------------------------- *)

(** C9: for every dot set and every grid of width W >= 0 and height
    H >= 0 (multiples of 2 and 4 or not), render_braille gives a block of
    exactly ceil(H/4) lines of exactly ceil(W/2) characters each; its text
    is determined by the dot set, the width and the height; and for the
    empty set every character of every line is the all-dots-off base block
    character, which is not a space. *)
Theorem C9_render_braille_shape (dots : gset complex) (width height : Z) :
  0 <= width → 0 <= height → render_contract dots width height.
Proof.
  intros Hw Hh. unfold render_contract. split; [|split].
  - exists (ceil_div height 4), (ceil_div width 2),
           (render_rows dots width height).
    split; [apply ceil_div_spec; lia|].
    split; [apply ceil_div_spec; lia|].
    split; [apply render_braille_block|].
    split.
    + unfold len. rewrite length_render_rows.
      apply Z2Nat.id. apply ceil_div_nonneg; lia.
    + eapply Forall_impl; [apply width_render_rows|].
      intros l Hl. cbn in *. unfold len. rewrite Hl.
      apply Z2Nat.id. apply ceil_div_nonneg; lia.
  - intros dots' Heq. apply set_eq in Heq. rewrite Heq. reflexivity.
  - exists (render_rows ∅ width height).
    split; [apply render_braille_block|apply render_rows_empty].
Qed.

Lemma C9_render_braille_shape_witness :
  0 <= 5 ∧ 0 <= 7 ∧ render_contract {[ J 0 0 ]} 5 7.
Proof.
  split; [lia|]. split; [lia|].
  apply (C9_render_braille_shape {[ J 0 0 ]} 5 7); lia.
Defined.

(* --------------------------------------------------------------------- *)
(* More on the animation loop                                             *)
(* --------------------------------------------------------------------- *)



(** X2: as long as freeze_animation() has not been called, an animated
    widget never stops: after any number n of timer periods the timer is
    still running, the index has advanced by n modulo 26 and n texts have
    been handed to the display; the animation has period 26, a multiple of
    26 periods bringing back the same index and the same dot set. *)
Theorem X2_animation_loops_until_frozen (h : Host) (n : nat) :
  reachable true h → _freeze_requested (widget h) = false →
  ∃ h2, run (replicate n Elapse) h = Some h2 ∧
    clock h2 = true ∧ _timer (widget h2) = Some IntervalTimer ∧
    _transition_index (widget h2) =
      (_transition_index (widget h) + Z.of_nat n) mod len TRANSITIONS ∧
    len (screen h2) = len (screen h) + Z.of_nat n ∧
    (Z.of_nat n mod len TRANSITIONS = 0 →
       _transition_index (widget h2) = _transition_index (widget h) ∧
       _dots (widget h2) = _dots (widget h)).
Proof.
  intros Hr Hf. pose proof (reachable_Inv _ _ Hr) as HI.
  destruct (free_run n h HI Hf) as (h2 & Hrun & HI2 & _ & Hclk & Hi & Hl).
  pose proof (inv_index _ _ HI) as Hc.
  exists h2. rewrite len_TRANSITIONS.
  split; [exact Hrun|]. split; [exact Hclk|]. split.
  { rewrite (inv_timer _ _ HI2), Hclk. reflexivity. }
  split; [exact Hi|]. split; [unfold len; lia|].
  intros Hper.
  assert (Hsame : _transition_index (widget h2) = _transition_index (widget h)).
  { rewrite Hi. rewrite Z.add_mod by lia. rewrite Hper, Z.add_0_r.
    rewrite Z.mod_mod by lia. apply Z.mod_small. exact Hc. }
  split; [exact Hsame|].
  rewrite (inv_dots _ _ HI2), (inv_dots _ _ HI), Hsame. reflexivity.
Qed.

Lemma X2_animation_loops_until_frozen_witness :
  reachable true (mount true) ∧
  _freeze_requested (widget (mount true)) = false ∧
  ∃ h2, run (replicate 26 Elapse) (mount true) = Some h2 ∧
    clock h2 = true ∧ _timer (widget h2) = Some IntervalTimer ∧
    _transition_index (widget h2) =
      (_transition_index (widget (mount true)) + Z.of_nat 26)
        mod len TRANSITIONS ∧
    len (screen h2) = len (screen (mount true)) + Z.of_nat 26 ∧
    (Z.of_nat 26 mod len TRANSITIONS = 0 →
       _transition_index (widget h2) =
         _transition_index (widget (mount true)) ∧
       _dots (widget h2) = _dots (widget (mount true))).
Proof.
  split; [apply reachable_mount|]. split; [reflexivity|].
  apply (X2_animation_loops_until_frozen (mount true) 26);
    [apply reachable_mount|reflexivity].
Defined.

(** X3: an animated widget is only ever found with its timer stopped after
    freeze_animation() has been called, and then at the loop boundary: the
    index is 0, the dot set is the initial pose and the timer handle is
    cleared.  It never stops in the middle of the loop. *)
Theorem X3_stops_only_at_the_boundary (h : Host) :
  reachable true h → clock h = false →
  _freeze_requested (widget h) = true ∧
  _transition_index (widget h) = 0 ∧
  _dots (widget h) = initial_dots ∧
  _timer (widget h) = None.
Proof.
  intros Hr Hclk. pose proof (reachable_Inv _ _ Hr) as HI.
  split; [apply (inv_stopped _ _ HI eq_refl Hclk)|].
  split; [apply (inv_rest _ _ HI Hclk)|].
  split.
  - rewrite (inv_dots _ _ HI), (inv_rest _ _ HI Hclk). reflexivity.
  - rewrite (inv_timer _ _ HI), Hclk. reflexivity.
Qed.

(** X4: a frame followed by the frame that swaps its two sets, the way
    QUEUE_MID_TO_RIGHT and QUEUE_LEFT_TO_MID are built, gives back the dot
    set it started from, provided the dots the first frame removes were lit
    and the dots it adds were not. *)
Theorem X4_swapped_frame_undoes (dots : gset complex) (d : delta) :
  remove d ⊆ dots → add d ## dots →
  apply_delta (apply_delta dots d) (swapped d) = dots.
Proof.
  intros Hsub Hdisj. unfold apply_delta, swapped. cbn.
  apply set_eq. intros c.
  rewrite !elem_of_union, !elem_of_difference, elem_of_union,
    elem_of_difference.
  specialize (Hsub c). specialize (Hdisj c).
  destruct (decide (c ∈ remove d)); destruct (decide (c ∈ add d)); tauto.
Qed.

Lemma X4_swapped_frame_undoes_witness :
  remove QUEUE_RIGHT_TO_MID ⊆ initial_dots ∧
  add QUEUE_RIGHT_TO_MID ## initial_dots ∧
  QUEUE_MID_TO_RIGHT = swapped QUEUE_RIGHT_TO_MID ∧
  apply_delta (apply_delta initial_dots QUEUE_RIGHT_TO_MID)
              (swapped QUEUE_RIGHT_TO_MID) = initial_dots.
Proof.
  assert (H1 : remove QUEUE_RIGHT_TO_MID ⊆ initial_dots).
  { apply (bool_decide_unpack _). vm_compute. exact I. }
  assert (H2 : add QUEUE_RIGHT_TO_MID ## initial_dots).
  { apply (bool_decide_unpack _). vm_compute. exact I. }
  split; [exact H1|]. split; [exact H2|]. split; [reflexivity|].
  apply (X4_swapped_frame_undoes initial_dots QUEUE_RIGHT_TO_MID H1 H2).
Defined.

Lemma X3_stops_only_at_the_boundary_witness :
  reachable true
    {| widget := {| _dots := initial_dots; _transition_index := 0;
                    _do_animate := true; _freeze_requested := true;
                    _timer := None |};
       screen := [render_braille initial_dots WIDTH HEIGHT];
       clock := false |} ∧
  clock
    {| widget := {| _dots := initial_dots; _transition_index := 0;
                    _do_animate := true; _freeze_requested := true;
                    _timer := None |};
       screen := [render_braille initial_dots WIDTH HEIGHT];
       clock := false |} = false ∧
  true = true ∧ 0 = 0 ∧ initial_dots = initial_dots ∧
  @None Timer = None.
Proof.
  assert (Hr : reachable true
    {| widget := {| _dots := initial_dots; _transition_index := 0;
                    _do_animate := true; _freeze_requested := true;
                    _timer := None |};
       screen := [render_braille initial_dots WIDTH HEIGHT];
       clock := false |}).
  { apply (reachable_step true (freeze (mount true)) Elapse); [|reflexivity].
    apply (reachable_step true (mount true) Freeze); [|reflexivity].
    apply reachable_mount. }
  split; [exact Hr|]. split; [reflexivity|].
  exact (X3_stops_only_at_the_boundary _ Hr eq_refl).
Defined.

(* --------------------------------------------------------------------- *)
(* AgentApp: the display of the settings                                  *)
(* --------------------------------------------------------------------- *)

Section agent_app_properties.
Import agent_app.

Lemma show_all_lookup (self : AgentApp) (agent_loop : AgentLoop)
    (ss : list AgentSettingDefinition) :
  ∀ (ws : list Static) (i : Z) (k : nat) s w,
    ss !! k = Some s → ws !! k = Some w →
    fst (show_all self agent_loop i ss ws) !! k =
      Some (show self agent_loop (i + Z.of_nat k) s w).
Proof.
  induction ss as [|s0 ss IH]; intros ws i k s w Hs Hw; [discriminate|].
  destruct ws as [|w0 ws]; [discriminate|]. cbn [show_all].
  destruct (show_all self agent_loop (i + 1) ss ws) as [ws'' e] eqn:E.
  destruct k as [|k]; cbn in *.
  - injection Hs as <-. injection Hw as <-. rewrite Z.add_0_r. reflexivity.
  - specialize (IH ws (i + 1) k s w Hs Hw). rewrite E in IH. cbn in IH.
    replace (i + Z.of_nat (S k)) with (i + 1 + Z.of_nat k) by lia. exact IH.
Qed.

Lemma show_all_strict (self : AgentApp) (agent_loop : AgentLoop)
    (ss : list AgentSettingDefinition) :
  ∀ (ws : list Static) (i : Z),
    snd (show_all self agent_loop i ss ws) =
      if decide (length ss = length ws) then None else Some ValueError.
Proof.
  induction ss as [|s0 ss IH]; intros [|w0 ws] i; cbn [show_all];
    try reflexivity.
  specialize (IH ws (i + 1)).
  destruct (show_all self agent_loop (i + 1) ss ws) as [ws'' e]. cbn in *.
  rewrite IH. cbn [length].
  destruct (decide (length ss = length ws));
    destruct (decide (S (length ss) = S (length ws))); (reflexivity || lia).
Qed.

Lemma show_all_length (self : AgentApp) (agent_loop : AgentLoop)
    (ss : list AgentSettingDefinition) :
  ∀ (ws : list Static) (i : Z), length ss = length ws →
    length (fst (show_all self agent_loop i ss ws)) = length ws.
Proof.
  induction ss as [|s0 ss IH]; intros [|w0 ws] i Hl; cbn [show_all];
    try discriminate; [reflexivity|].
  specialize (IH ws (i + 1)).
  destruct (show_all self agent_loop (i + 1) ss ws) as [ws'' e]. cbn in *.
  rewrite IH by lia. reflexivity.
Qed.

(** X5: _update_display returns exactly when there are as many setting
    widgets as settings, and with any other number of widgets it raises the
    ValueError of zip(..., strict=True); in both cases every widget that has
    a setting at its position has been redrawn by then, the object keeps
    its other attributes and no request is made. *)
Theorem X5_update_display_is_strict (self : AgentApp)
    (agent_loop : AgentLoop) (out : list request) :
  ∃ ws,
    _update_display self agent_loop out =
      (if decide (length (settings self) = length (setting_widgets self))
       then Returned (with_widgets self ws) out
       else Raised ValueError (with_widgets self ws) out) ∧
    ∀ (k : nat) s w,
      settings self !! k = Some s → setting_widgets self !! k = Some w →
      ws !! k = Some (show self agent_loop (Z.of_nat k) s w).
Proof.
  unfold _update_display.
  pose proof (show_all_strict self agent_loop (settings self)
                (setting_widgets self) 0) as He.
  pose proof (show_all_lookup self agent_loop (settings self)
                (setting_widgets self) 0) as Hk.
  destruct (show_all self agent_loop 0 (settings self) (setting_widgets self))
    as [ws e]. cbn in *.
  exists ws. split.
  - rewrite He. destruct (decide _); reflexivity.
  - intros k s w Hs Hw. apply (Hk k s w Hs Hw).
Qed.

(* --------------------------------------------------------------------- *)
(* AgentApp: the next option                                              *)
(* --------------------------------------------------------------------- *)

Lemma index_Some (options : list string) (current : string) :
  ∀ i, index options current = Some i →
    0 <= i < len options ∧ options !! Z.to_nat i = Some current ∧
    ∀ j : nat, (j < Z.to_nat i)%nat → options !! j ≠ Some current.
Proof.
  induction options as [|o options IH]; intros i Hi; [discriminate|].
  cbn in Hi. destruct (String.eqb_spec o current) as [->|Hne].
  - injection Hi as <-. unfold len. cbn. split; [lia|].
    split; [reflexivity|]. intros j Hj. lia.
  - destruct (index options current) as [i'|]; [|discriminate].
    injection Hi as <-. destruct (IH i' eq_refl) as (Hr & Hl & Hfirst).
    unfold len in *. cbn [length]. split; [lia|].
    replace (Z.to_nat (i' + 1)) with (S (Z.to_nat i')) by lia.
    split; [exact Hl|].
    intros [|j] Hj; cbn; [congruence|]. apply Hfirst. lia.
Qed.

Lemma index_None (options : list string) (current : string) :
  index options current = None → current ∉ options.
Proof.
  induction options as [|o options IH]; intros Hi; [apply not_elem_of_nil|].
  cbn in Hi. destruct (String.eqb_spec o current) as [->|Hne]; [discriminate|].
  destruct (index options current); [discriminate|].
  apply not_elem_of_cons. split; [congruence|]. apply IH. reflexivity.
Qed.

Lemma fallback_elem (options : list string) (current : string) :
  options ≠ [] → fallback options current ∈ options.
Proof. destruct options; [contradiction|]. intros _. apply list_elem_of_here. Qed.

Lemma next_value_cases (options : list string)
    (current : string) :
  ∃ v, next_value options current = Some v ∧
    match index options current with
    | Some i => options !! Z.to_nat ((i + 1) mod len options) = Some v
    | None => v = fallback options current
    end ∧
    (options ≠ [] → v ∈ options) ∧
    (options = [] → v = current).
Proof.
  unfold next_value. destruct (index options current) as [i|] eqn:Hi.
  - destruct (index_Some _ _ _ Hi) as (Hr & Hl & _).
    destruct (Z.eqb_spec (len options) 0) as [E|E]; [lia|].
    pose proof (Z.mod_pos_bound (i + 1) (len options) ltac:(lia)) as Hm.
    destruct (getitem_total options ((i + 1) mod len options) Hm)
      as (v & Hg & Hv).
    rewrite Hg. exists v. split; [reflexivity|]. split; [exact Hv|].
    split.
    + intros _. apply list_elem_of_lookup. eauto.
    + intros ->. unfold len in Hr. cbn in Hr. lia.
  - exists (fallback options current). split; [reflexivity|].
    split; [reflexivity|]. split.
    + apply fallback_elem.
    + intros ->. reflexivity.
Qed.

Lemma index_first (options : list string) (current : string) (i : nat) :
  options !! i = Some current →
  (∀ j : nat, (j < i)%nat → options !! j ≠ Some current) →
  index options current = Some (Z.of_nat i).
Proof.
  intros Hi Hmin. destruct (index options current) as [i'|] eqn:E.
  - destruct (index_Some _ _ _ E) as (Hr & Hl & Hfirst).
    f_equal. destruct (lt_eq_lt_dec (Z.to_nat i') i) as [[Hlt|Heq]|Hgt].
    + exfalso. apply (Hmin _ Hlt). exact Hl.
    + lia.
    + exfalso. apply (Hfirst _ Hgt). exact Hi.
  - exfalso. apply (index_None _ _ E). apply list_elem_of_lookup. eauto.
Qed.

(** X6: the try block of action_toggle_setting always produces a value and
    no exception leaves it.  When the current value is among the options
    and i is the first position that holds it, the new value is the option
    at position (i + 1) mod len(options): the one that follows the first
    occurrence, the first option following the last.  When the current
    value is not among the options the new value is the option at position
    0.  The new value is always one of the options, unless there is no
    option at all, and then it is the current value. *)
Theorem X6_next_value_picks_an_option (options : list string)
    (current : string) :
  ∃ v, next_value options current = Some v ∧
    (∀ i : nat,
       options !! i = Some current →
       (∀ j : nat, (j < i)%nat → options !! j ≠ Some current) →
       options !! ((i + 1) mod length options)%nat = Some v) ∧
    (current ∉ options → ∀ o, options !! 0%nat = Some o → v = o) ∧
    (options ≠ [] → v ∈ options) ∧
    (options = [] → v = current).
Proof.
  destruct (next_value_cases options current) as (v & Hv & Hm & Hin & Hnil).
  exists v. split; [exact Hv|]. split; [|split; [|split; assumption]].
  - intros i Hi Hmin. rewrite (index_first _ _ _ Hi Hmin) in Hm.
    pose proof (lookup_lt_Some _ _ _ Hi) as Hlt.
    replace ((i + 1) mod length options)%nat
      with (Z.to_nat ((Z.of_nat i + 1) mod len options)); [exact Hm|].
    unfold len. rewrite <- (Nat2Z.id ((i + 1) mod length options)).
    f_equal. rewrite Nat2Z.inj_mod. f_equal. lia.
  - intros Hnot o Ho. destruct (index options current) as [i'|] eqn:E.
    + exfalso. apply Hnot. destruct (index_Some _ _ _ E) as (_ & Hl & _).
      apply list_elem_of_lookup. eauto.
    + rewrite Hm. destruct options as [|o' options']; [discriminate|].
      cbn in Ho. injection Ho as <-. reflexivity.
Qed.

(* With a value held twice, the option after its first occurrence is the
   one picked; a value that is no option leads to the first option. *)
Lemma X6_next_value_picks_an_option_witness :
  next_value ["auto"; "plan"; "auto"; "chat"]%string "auto" = Some "plan"%string ∧
  next_value ["auto"; "plan"]%string "chat" = Some "auto"%string.
Proof.
  split.
  - destruct (X6_next_value_picks_an_option
                ["auto"; "plan"; "auto"; "chat"]%string "auto")
      as (v & Hv & Hfirst & _).
    rewrite Hv. symmetry. apply (Hfirst 0%nat); [reflexivity|].
    intros j Hj. inversion Hj.
  - destruct (X6_next_value_picks_an_option ["auto"; "plan"]%string "chat")
      as (v & Hv & _ & Hnot & _).
    rewrite Hv. f_equal. apply Hnot; [|reflexivity].
    apply (bool_decide_eq_false_1 _). vm_compute. reflexivity.
Defined.

Lemma index_NoDup (options : list string) :
  NoDup options → ∀ (k : nat) o, options !! k = Some o →
  index options o = Some (Z.of_nat k).
Proof.
  induction 1 as [|o0 options Hnotin Hnd IH]; intros k o Hk; [discriminate|].
  destruct k as [|k]; cbn in *.
  - injection Hk as <-. rewrite String.eqb_refl. reflexivity.
  - destruct (String.eqb_spec o0 o) as [->|Hne].
    + exfalso. apply Hnotin. apply list_elem_of_lookup. eauto.
    + rewrite (IH k o Hk). f_equal. lia.
Qed.

Lemma next_value_NoDup (options : list string) (k : nat) (o : string) :
  NoDup options → options !! k = Some o →
  ∃ o', next_value options o = Some o' ∧
        options !! ((k + 1) mod length options)%nat = Some o'.
Proof.
  intros Hnd Hk.
  destruct (next_value_cases options o) as (v & Hv & Hm & _).
  rewrite (index_NoDup _ Hnd k o Hk) in Hm.
  exists v. split; [exact Hv|].
  pose proof (lookup_lt_Some _ _ _ Hk) as Hlt.
  replace ((k + 1) mod length options)%nat
    with (Z.to_nat ((Z.of_nat k + 1) mod len options)); [exact Hm|].
  unfold len. rewrite <- (Nat2Z.id ((k + 1) mod length options)).
  f_equal. rewrite Nat2Z.inj_mod. f_equal. lia.
Qed.

Lemma toggles_NoDup (options : list string) (k : nat) (o : string) :
  NoDup options → options !! k = Some o →
  ∀ n, ∃ o', toggles n options o = Some o' ∧
             options !! ((k + n) mod length options)%nat = Some o'.
Proof.
  intros Hnd Hk. pose proof (lookup_lt_Some _ _ _ Hk) as Hlt.
  induction n as [|n (o1 & Ht & Hl)]; cbn [toggles].
  - exists o. split; [reflexivity|].
    rewrite Nat.add_0_r, Nat.mod_small by exact Hlt. exact Hk.
  - rewrite Ht.
    destruct (next_value_NoDup options _ o1 Hnd Hl) as (o2 & Hn & Hl2).
    exists o2. split; [exact Hn|].
    replace ((k + S n) mod length options)%nat
      with (((k + n) mod length options + 1) mod length options)%nat;
      [exact Hl2|].
    rewrite Nat.Div0.add_mod_idemp_l. f_equal. lia.
Qed.

(** X7: when the options hold no value twice and the current value is one
    of them, toggling goes round all of them: every option is reached
    after fewer toggles than there are options, and as many toggles as
    there are options bring back the value started from. *)
Theorem X7_toggling_goes_round (options : list string) (current : string) :
  NoDup options → current ∈ options →
  toggles (length options) options current = Some current ∧
  ∀ o, o ∈ options →
    ∃ n, (n < length options)%nat ∧ toggles n options current = Some o.
Proof.
  intros Hnd Hin. apply list_elem_of_lookup in Hin as [k Hk].
  pose proof (lookup_lt_Some _ _ _ Hk) as Hlt. split.
  - destruct (toggles_NoDup options k current Hnd Hk (length options))
      as (o' & Ht & Hl).
    rewrite Ht. f_equal.
    replace ((k + length options) mod length options)%nat with k in Hl.
    + congruence.
    + rewrite <- Nat.Div0.add_mod_idemp_r, Nat.Div0.mod_same, Nat.add_0_r.
      symmetry. apply Nat.mod_small. exact Hlt.
  - intros o Ho. apply list_elem_of_lookup in Ho as [m Hm].
    pose proof (lookup_lt_Some _ _ _ Hm) as Hltm.
    exists ((m + length options - k) mod length options)%nat. split.
    + apply Nat.mod_upper_bound. lia.
    + destruct (toggles_NoDup options k current Hnd Hk
                  ((m + length options - k) mod length options)%nat)
        as (o' & Ht & Hl).
      rewrite Ht. f_equal.
      rewrite Nat.Div0.add_mod_idemp_r in Hl.
      replace (k + (m + length options - k))%nat
        with (m + length options)%nat in Hl by lia.
      rewrite <- Nat.Div0.add_mod_idemp_r, Nat.Div0.mod_same, Nat.add_0_r in Hl.
      rewrite Nat.mod_small in Hl by exact Hltm. congruence.
Qed.

Lemma X7_toggling_goes_round_witness :
  NoDup ["auto"; "plan"; "chat"]%string ∧
  ("plan"%string ∈ ["auto"; "plan"; "chat"]%string) ∧
  toggles (length ["auto"; "plan"; "chat"]%string)
          ["auto"; "plan"; "chat"]%string "plan" = Some "plan"%string ∧
  ∀ o, o ∈ ["auto"; "plan"; "chat"]%string →
    ∃ n, (n < length ["auto"; "plan"; "chat"]%string)%nat ∧
         toggles n ["auto"; "plan"; "chat"]%string "plan" = Some o.
Proof.
  assert (H1 : NoDup ["auto"; "plan"; "chat"]%string).
  { apply (bool_decide_unpack _). vm_compute. exact I. }
  assert (H2 : "plan"%string ∈ ["auto"; "plan"; "chat"]%string).
  { apply (bool_decide_unpack _). vm_compute. exact I. }
  split; [exact H1|]. split; [exact H2|].
  exact (X7_toggling_goes_round ["auto"; "plan"; "chat"]%string "plan" H1 H2).
Defined.

(* --------------------------------------------------------------------- *)
(* AgentApp: the mounted widget                                           *)
(* --------------------------------------------------------------------- *)

Lemma update_display_returns (self : AgentApp) (agent_loop : AgentLoop)
    (out : list request) :
  length (settings self) = length (setting_widgets self) →
  _update_display self agent_loop out =
    Returned (with_widgets self (redrawn self agent_loop)) out.
Proof.
  intros Hl. unfold _update_display, redrawn.
  pose proof (show_all_strict self agent_loop (settings self)
                (setting_widgets self) 0) as He.
  destruct (show_all self agent_loop 0 (settings self) (setting_widgets self))
    as [ws e]. cbn in *.
  rewrite He. destruct (decide _); [reflexivity|contradiction].
Qed.

Lemma length_redrawn (self : AgentApp) (agent_loop : AgentLoop) :
  length (settings self) = length (setting_widgets self) →
  length (redrawn self agent_loop) = length (setting_widgets self).
Proof. apply show_all_length. Qed.

Lemma redrawn_lookup (self : AgentApp) (agent_loop : AgentLoop)
    (k : nat) s w :
  settings self !! k = Some s → setting_widgets self !! k = Some w →
  redrawn self agent_loop !! k = Some (show self agent_loop (Z.of_nat k) s w).
Proof.
  intros Hs Hw. unfold redrawn.
  apply (show_all_lookup self agent_loop (settings self)
           (setting_widgets self) 0 k s w Hs Hw).
Qed.

Lemma show_keeps_option (self : AgentApp) (agent_loop : AgentLoop) (i : Z)
    s w :
  "settings-option"%string ∈ classes w →
  "settings-option"%string ∈ classes (show self agent_loop i s w).
Proof.
  intros Hin. unfold show. cbv zeta.
  destruct (i =? selected_index self); cbn;
    rewrite elem_of_union, !elem_of_difference, !elem_of_singleton;
    left; split_and!; (exact Hin || discriminate).
Qed.

Lemma redrawn_keeps_option (self : AgentApp) (agent_loop : AgentLoop) :
  length (settings self) = length (setting_widgets self) →
  Forall (λ w, "settings-option"%string ∈ classes w) (setting_widgets self) →
  Forall (λ w, "settings-option"%string ∈ classes w) (redrawn self agent_loop).
Proof.
  intros Hl Hall. apply Forall_lookup. intros k w' Hk.
  pose proof (lookup_lt_Some _ _ _ Hk) as Hlt.
  rewrite length_redrawn in Hlt by exact Hl.
  destruct (lookup_lt_is_Some_2 (setting_widgets self) k Hlt) as [w Hw].
  destruct (lookup_lt_is_Some_2 (settings self) k ltac:(lia)) as [s Hs].
  rewrite (redrawn_lookup self agent_loop k s w Hs Hw) in Hk.
  injection Hk as <-. apply show_keeps_option.
  rewrite Forall_lookup in Hall. apply (Hall k w Hw).
Qed.

Lemma settings_init (agent_loop0 : AgentLoop) :
  ∃ agent_options,
    settings (__init__ agent_loop0) =
      [ {| key := "agent"; label := "Agent"; type := "cycle";
           options := agent_options; category := "agent" |};
        {| key := "active_model"; label := "Model"; type := "cycle";
           options := map alias (models (config agent_loop0));
           category := "model" |} ] ∧
    agent_options =
      sorted (map (λ kv : string * AgentProfile, agent_line (snd kv))
                  (available_agents (agent_manager agent_loop0))).
Proof. eexists. split; reflexivity. Qed.

Lemma Inv_redraw (agent_loop0 agent_loop : AgentLoop) (self : AgentApp) :
  Inv agent_loop0 self →
  Inv agent_loop0 (with_widgets self (redrawn self agent_loop)).
Proof.
  intros [Hs Hw Hi Ha Hm Hc].
  assert (Hl : length (settings self) = length (setting_widgets self)).
  { rewrite Hs, Hw. reflexivity. }
  constructor; cbn; try assumption.
  - rewrite length_redrawn by exact Hl. exact Hw.
  - apply redrawn_keeps_option; assumption.
Qed.

Lemma Inv_start (agent_loop0 : AgentLoop) :
  ∃ self, start agent_loop0 = Returned self [focus] ∧ Inv agent_loop0 self.
Proof.
  unfold start, on_mount.
  rewrite update_display_returns by reflexivity.
  eexists. split; [reflexivity|].
  constructor; cbn; try reflexivity; try lia.
  - intros k v Hk. rewrite lookup_empty in Hk. discriminate.
  - intros k v Hk. rewrite lookup_empty in Hk. discriminate.
  - unfold redrawn. cbn.
    repeat constructor; apply show_keeps_option; cbn;
      apply elem_of_union; left; apply elem_of_singleton; reflexivity.
Qed.

(* The selected setting of a mounted widget. *)
Lemma selected_setting (agent_loop0 : AgentLoop) (self : AgentApp) :
  Inv agent_loop0 self →
  ∃ setting,
    getitem (settings self) (selected_index self) = Some setting ∧
    settings self !! Z.to_nat (selected_index self) = Some setting ∧
    ((selected_index self = 0 ∧ key setting = "agent"%string ∧
      category setting = "agent"%string) ∨
     (selected_index self = 1 ∧ key setting = "active_model"%string ∧
      category setting = "model"%string)).
Proof.
  intros [Hs Hw Hi Ha Hm Hc].
  destruct (settings_init agent_loop0) as (ao & Hinit & _).
  rewrite Hs, Hinit.
  assert (Hcase : selected_index self = 0 ∨ selected_index self = 1) by lia.
  destruct Hcase as [-> | ->]; eexists;
    (split; [reflexivity|]); (split; [reflexivity|]);
    [left|right]; split_and!; reflexivity.
Qed.

Lemma Inv_act (agent_loop0 agent_loop : AgentLoop) (self : AgentApp)
    (a : action) :
  Inv agent_loop0 self →
  ∃ self' out, act a self agent_loop = Returned self' out ∧
    Inv agent_loop0 self'.
Proof.
  intros HI. pose proof HI as [Hs Hw Hi Ha Hm Hc].
  assert (Hlen : len (settings self) = 2).
  { rewrite Hs. reflexivity. }
  assert (Hl : length (settings self) = length (setting_widgets self)).
  { rewrite Hs, Hw. reflexivity. }
  destruct a; cbn [act].
  - unfold action_move_up. rewrite Hlen. cbn [Z.eqb].
    rewrite update_display_returns by exact Hl.
    eexists _, _. split; [reflexivity|].
    apply (Inv_redraw agent_loop0 agent_loop
             (with_index self ((selected_index self - 1) mod 2))).
    constructor; cbn; try assumption.
    apply Z.mod_pos_bound. lia.
  - unfold action_move_down. rewrite Hlen. cbn [Z.eqb].
    rewrite update_display_returns by exact Hl.
    eexists _, _. split; [reflexivity|].
    apply (Inv_redraw agent_loop0 agent_loop
             (with_index self ((selected_index self + 1) mod 2))).
    constructor; cbn; try assumption.
    apply Z.mod_pos_bound. lia.
  - unfold action_toggle_setting.
    destruct (selected_setting agent_loop0 self HI) as (st & Hg & _ & Hcase).
    rewrite Hg.
    destruct (next_value_cases (options st)
                (_get_display_value self agent_loop st)) as (v & Hv & _).
    rewrite Hv.
    destruct Hcase as [(_ & Hk & Hcat) | (_ & Hk & Hcat)]; rewrite Hcat, Hk;
      cbn [String.eqb Ascii.eqb Bool.eqb];
      rewrite update_display_returns by exact Hl;
      (eexists _, _; split; [reflexivity|]);
      match goal with
      | |- Inv _ (with_widgets ?s _) => apply (Inv_redraw agent_loop0 agent_loop s)
      end;
      constructor; cbn; try assumption.
    + intros k v' Hlk. destruct (decide (k = "agent"%string)) as [E|E];
        [exact E|]. rewrite lookup_insert_ne in Hlk by congruence.
      apply (Ha k v' Hlk).
    + intros k v' Hlk. destruct (decide (k = "active_model"%string)) as [E|E];
        [exact E|]. rewrite lookup_insert_ne in Hlk by congruence.
      apply (Hm k v' Hlk).
  - unfold action_cycle, action_toggle_setting.
    destruct (selected_setting agent_loop0 self HI) as (st & Hg & _ & Hcase).
    rewrite Hg.
    destruct (next_value_cases (options st)
                (_get_display_value self agent_loop st)) as (v & Hv & _).
    rewrite Hv.
    destruct Hcase as [(_ & Hk & Hcat) | (_ & Hk & Hcat)]; rewrite Hcat, Hk;
      cbn [String.eqb Ascii.eqb Bool.eqb];
      rewrite update_display_returns by exact Hl;
      (eexists _, _; split; [reflexivity|]);
      match goal with
      | |- Inv _ (with_widgets ?s _) => apply (Inv_redraw agent_loop0 agent_loop s)
      end;
      constructor; cbn; try assumption.
    + intros k v' Hlk. destruct (decide (k = "agent"%string)) as [E|E];
        [exact E|]. rewrite lookup_insert_ne in Hlk by congruence.
      apply (Ha k v' Hlk).
    + intros k v' Hlk. destruct (decide (k = "active_model"%string)) as [E|E];
        [exact E|]. rewrite lookup_insert_ne in Hlk by congruence.
      apply (Hm k v' Hlk).
  - eexists _, _. split; [reflexivity|]. exact HI.
  - eexists _, _. split; [reflexivity|]. exact HI.
Qed.

Lemma reachable_Inv_app (agent_loop0 : AgentLoop) (self : AgentApp) :
  reachable agent_loop0 self → Inv agent_loop0 self.
Proof.
  induction 1 as [self out Hst | self a agent_loop self' out _ IH Hact].
  - destruct (Inv_start agent_loop0) as (self0 & Hs0 & HI0).
    rewrite Hs0 in Hst. injection Hst as <- _. exact HI0.
  - destruct (Inv_act agent_loop0 agent_loop self a IH) as (s1 & o1 & Ha & HI1).
    rewrite Ha in Hact. injection Hact as <- _. exact HI1.
Qed.

Lemma act_effect (agent_loop0 agent_loop : AgentLoop) (self : AgentApp)
    (a : action) :
  Inv agent_loop0 self →
  ∃ self1 out,
    act a self agent_loop =
      Returned (if redraws a
                then with_widgets self1 (redrawn self1 agent_loop)
                else self1) out ∧
    Inv agent_loop0 self1 ∧
    setting_widgets self1 = setting_widgets self ∧
    match a with
    | move_up =>
        self1 = with_index self ((selected_index self - 1) mod 2) ∧ out = []
    | move_down =>
        self1 = with_index self ((selected_index self + 1) mod 2) ∧ out = []
    | toggle_setting | cycle =>
        ∃ setting v,
          getitem (settings self) (selected_index self) = Some setting ∧
          next_value (options setting)
                     (_get_display_value self agent_loop setting) = Some v ∧
          selected_index self1 = selected_index self ∧
          ((category setting = "agent"%string ∧
            key setting = "agent"%string ∧
            agent_changes self1 = <[ "agent"%string := v ]> (agent_changes self) ∧
            model_changes self1 = model_changes self ∧
            out = [post_message (AgentChanged v)]) ∨
           (category setting = "model"%string ∧
            key setting = "active_model"%string ∧
            agent_changes self1 = agent_changes self ∧
            model_changes self1 =
              <[ "active_model"%string := v ]> (model_changes self) ∧
            out = [post_message (ModelChanged v)]))
    | close =>
        self1 = self ∧
        out = [post_message
                 (AgentClosed (agent_changes self) (model_changes self))]
    | blur => self1 = self ∧ out = [call_after_refresh_focus]
    end.
Proof.
  intros HI. pose proof HI as [Hs Hw Hi Ha Hm Hc].
  assert (Hlen : len (settings self) = 2).
  { rewrite Hs. reflexivity. }
  assert (Hl : length (settings self) = length (setting_widgets self)).
  { rewrite Hs, Hw. reflexivity. }
  assert (Htoggle :
    ∃ self1 out,
      action_toggle_setting self agent_loop =
        Returned (with_widgets self1 (redrawn self1 agent_loop)) out ∧
      Inv agent_loop0 self1 ∧
      setting_widgets self1 = setting_widgets self ∧
      ∃ setting v,
        getitem (settings self) (selected_index self) = Some setting ∧
        next_value (options setting)
                   (_get_display_value self agent_loop setting) = Some v ∧
        selected_index self1 = selected_index self ∧
        ((category setting = "agent"%string ∧
          key setting = "agent"%string ∧
          agent_changes self1 = <[ "agent"%string := v ]> (agent_changes self) ∧
          model_changes self1 = model_changes self ∧
          out = [post_message (AgentChanged v)]) ∨
         (category setting = "model"%string ∧
          key setting = "active_model"%string ∧
          agent_changes self1 = agent_changes self ∧
          model_changes self1 =
            <[ "active_model"%string := v ]> (model_changes self) ∧
          out = [post_message (ModelChanged v)]))).
  { unfold action_toggle_setting.
    destruct (selected_setting agent_loop0 self HI) as (st & Hg & _ & Hcase).
    rewrite Hg.
    destruct (next_value_cases (options st)
                (_get_display_value self agent_loop st)) as (v & Hv & _).
    rewrite Hv.
    destruct Hcase as [(_ & Hk & Hcat) | (_ & Hk & Hcat)]; rewrite Hcat, Hk;
      cbn [String.eqb Ascii.eqb Bool.eqb];
      rewrite update_display_returns by exact Hl;
      (eexists _, _; split; [reflexivity|]).
    - split.
      + constructor; cbn; try assumption.
        intros k v' Hlk. destruct (decide (k = "agent"%string)) as [E|E];
          [exact E|]. rewrite lookup_insert_ne in Hlk by congruence.
        apply (Ha k v' Hlk).
      + split; [reflexivity|]. exists st, v.
        split; [reflexivity|]. split; [exact Hv|]. split; [reflexivity|].
        left. split_and!; (assumption || reflexivity).
    - split.
      + constructor; cbn; try assumption.
        intros k v' Hlk.
        destruct (decide (k = "active_model"%string)) as [E|E];
          [exact E|]. rewrite lookup_insert_ne in Hlk by congruence.
        apply (Hm k v' Hlk).
      + split; [reflexivity|]. exists st, v.
        split; [reflexivity|]. split; [exact Hv|]. split; [reflexivity|].
        right. split_and!; (assumption || reflexivity). }
  destruct a; cbn [act redraws].
  - unfold action_move_up. rewrite Hlen. cbn [Z.eqb].
    rewrite update_display_returns by exact Hl.
    eexists _, _. split; [reflexivity|]. split.
    + constructor; cbn; try assumption. apply Z.mod_pos_bound. lia.
    + split; [reflexivity|]. split; reflexivity.
  - unfold action_move_down. rewrite Hlen. cbn [Z.eqb].
    rewrite update_display_returns by exact Hl.
    eexists _, _. split; [reflexivity|]. split.
    + constructor; cbn; try assumption. apply Z.mod_pos_bound. lia.
    + split; [reflexivity|]. split; reflexivity.
  - exact Htoggle.
  - exact Htoggle.
  - exists self. eexists. split; [reflexivity|]. split; [exact HI|].
    split; [reflexivity|]. split; reflexivity.
  - exists self. eexists. split; [reflexivity|]. split; [exact HI|].
    split; [reflexivity|]. split; reflexivity.
Qed.

(** X8: on a widget whose index is within its settings and which has one
    widget per setting, action_move_down and action_move_up return, make no
    request and change nothing but the index and the drawing (settings,
    agent_changes, model_changes, the title and help widgets and the number
    of setting widgets are as before, after down, after up, and after up
    following down): down goes to the next setting and from the last to
    the first, up to the previous one and from the first to the last, and
    up after down comes back to the setting left. *)
Theorem X8_cursor_wraps (self : AgentApp) (loop1 loop2 : AgentLoop) :
  0 <= selected_index self < len (settings self) →
  length (setting_widgets self) = length (settings self) →
  moves_contract self loop1 loop2.
Proof.
  intros Hi Hl. unfold moves_contract. set (n := len (settings self)) in *.
  assert (Hn : (n =? 0) = false) by (apply Z.eqb_neq; lia).
  assert (Hdown : (selected_index self + 1) mod n =
            if selected_index self =? n - 1 then 0 else selected_index self + 1).
  { destruct (Z.eqb_spec (selected_index self) (n - 1)) as [E|E].
    - rewrite E. replace (n - 1 + 1) with n by lia. apply Z_mod_same_full.
    - apply Z.mod_small. lia. }
  assert (Hup : ∀ i, 0 <= i < n →
            (i - 1) mod n = if i =? 0 then n - 1 else i - 1).
  { intros i Hir. destruct (Z.eqb_spec i 0) as [E|E].
    - rewrite E. replace (0 - 1) with (n - 1 + (-1) * n) by lia.
      rewrite Z_mod_plus_full. apply Z.mod_small. lia.
    - apply Z.mod_small. lia. }
  assert (Hmove : ∀ (s : AgentApp) (l : AgentLoop) (i : Z),
            settings s = settings self →
            length (setting_widgets s) = length (settings s) →
            (if len (settings s) =? 0 then Raised ZeroDivisionError s []
             else _update_display (with_index s i) l []) =
            Returned (with_widgets (with_index s i)
                        (redrawn (with_index s i) l)) []).
  { intros s l i Hs Hls. rewrite Hs. fold n. rewrite Hn.
    apply update_display_returns. cbn. congruence. }
  assert (Hmoved : ∀ (s : AgentApp) (l : AgentLoop) (i : Z),
            moved self s →
            length (setting_widgets s) = length (settings s) →
            moved self (with_widgets (with_index s i)
                          (redrawn (with_index s i) l))).
  { intros s l i (H1 & H2 & H3 & H4 & H5 & H6) Hls.
    unfold moved. cbn. split_and!; try assumption.
    rewrite length_redrawn by (cbn; congruence). exact H6. }
  assert (Hself : moved self self) by (unfold moved; split_and!; reflexivity).
  exists (with_widgets
            (with_index self ((selected_index self + 1) mod n))
            (redrawn (with_index self ((selected_index self + 1) mod n))
                     loop1)).
  eexists. eexists.
  split; [apply (Hmove self loop1); [reflexivity|exact Hl]|].
  split.
  { unfold action_move_up. apply Hmove; [reflexivity|].
    cbn. rewrite length_redrawn by (cbn; congruence). exact Hl. }
  split; [apply (Hmove self loop1); [reflexivity|exact Hl]|].
  cbn [selected_index with_widgets with_index settings]. fold n.
  split; [exact Hdown|]. split; [apply Hup; exact Hi|].
  split.
  { rewrite Hdown.
    destruct (Z.eqb_spec (selected_index self) (n - 1)) as [E|E].
    - rewrite Hup by lia. cbn. lia.
    - rewrite Hup by lia.
      destruct (Z.eqb_spec (selected_index self + 1) 0); lia. }
  split; [apply Hmoved; [exact Hself|exact Hl]|].
  split; [|apply Hmoved; [exact Hself|exact Hl]].
  apply Hmoved.
  - apply Hmoved; [exact Hself|exact Hl].
  - cbn. rewrite length_redrawn by (cbn; congruence). exact Hl.
Qed.

Lemma X8_cursor_wraps_witness :
  0 <= selected_index (fst (compose (__init__ sample_loop)))
    < len (settings (fst (compose (__init__ sample_loop)))) ∧
  length (setting_widgets (fst (compose (__init__ sample_loop)))) =
    length (settings (fst (compose (__init__ sample_loop)))) ∧
  moves_contract (fst (compose (__init__ sample_loop))) sample_loop sample_loop.
Proof.
  assert (H1 : 0 <= selected_index (fst (compose (__init__ sample_loop)))
                 < len (settings (fst (compose (__init__ sample_loop))))).
  { change (0 <= 0 < 2). lia. }
  assert (H2 : length (setting_widgets (fst (compose (__init__ sample_loop)))) =
               length (settings (fst (compose (__init__ sample_loop))))).
  { reflexivity. }
  split; [exact H1|]. split; [exact H2|].
  exact (X8_cursor_wraps (fst (compose (__init__ sample_loop)))
           sample_loop sample_loop H1 H2).
Defined.

Lemma start_mounted (agent_loop0 : AgentLoop) :
  start agent_loop0 = Returned (mounted agent_loop0) [focus].
Proof.
  destruct (Inv_start agent_loop0) as (self & Hs & _).
  unfold mounted. rewrite Hs. reflexivity.
Qed.

Lemma reachable_mounted (agent_loop0 : AgentLoop) :
  reachable agent_loop0 (mounted agent_loop0).
Proof. eapply reachable_start. apply start_mounted. Qed.

(** X9: no action of a mounted AgentApp raises, with the agent loop in any
    state: settings[selected_index] finds a setting, no modulo is by zero
    and zip finds one widget per setting.  The state it returns is again
    one in which the index is within the settings, there is one widget per
    setting, and the settings are those built at construction. *)
Theorem X9_actions_never_raise (agent_loop0 agent_loop : AgentLoop)
    (self : AgentApp) (a : action) :
  reachable agent_loop0 self →
  ∃ self' out,
    act a self agent_loop = Returned self' out ∧
    0 <= selected_index self' < len (settings self') ∧
    length (setting_widgets self') = length (settings self') ∧
    settings self' = settings (__init__ agent_loop0).
Proof.
  intros Hr. pose proof (reachable_Inv_app _ _ Hr) as HI.
  destruct (Inv_act agent_loop0 agent_loop self a HI)
    as (self' & out & Ha & [Hs Hw Hi _ _ _]).
  exists self', out. split; [exact Ha|].
  rewrite Hs, Hw. split; [exact Hi|]. split; reflexivity.
Qed.

Lemma X9_actions_never_raise_witness :
  reachable sample_loop (mounted sample_loop) ∧
  ∃ self' out,
    act toggle_setting (mounted sample_loop) sample_loop =
      Returned self' out ∧
    0 <= selected_index self' < len (settings self') ∧
    length (setting_widgets self') = length (settings self') ∧
    settings self' = settings (__init__ sample_loop).
Proof.
  split; [apply reachable_mounted|].
  apply (X9_actions_never_raise sample_loop sample_loop
           (mounted sample_loop) toggle_setting).
  apply reachable_mounted.
Defined.

#[local] Instance str_le_total : Total str_le.
Proof. intros a b. apply String.leb_total. Qed.

(** X10: the settings of a mounted AgentApp are fixed at construction,
    whatever becomes of the agent loop later: first the Agent setting,
    whose options are the lines "display_name - description" of the agents
    available then, one per agent, in ascending order; then the Model
    setting, whose options are the aliases of the configured models in
    their order. *)
Theorem X10_settings_are_fixed (agent_loop0 : AgentLoop) (self : AgentApp) :
  reachable agent_loop0 self →
  ∃ agent_options,
    settings self =
      [ {| key := "agent"; label := "Agent"; type := "cycle";
           options := agent_options; category := "agent" |};
        {| key := "active_model"; label := "Model"; type := "cycle";
           options := map alias (models (config agent_loop0));
           category := "model" |} ] ∧
    Sorted str_le agent_options ∧
    agent_options ≡ₚ
      map (λ kv : string * AgentProfile, agent_line (snd kv))
          (available_agents (agent_manager agent_loop0)).
Proof.
  intros Hr. pose proof (reachable_Inv_app _ _ Hr) as HI.
  destruct (settings_init agent_loop0) as (ao & Hinit & Hao).
  exists ao. rewrite (inv_settings _ _ HI). split; [exact Hinit|].
  rewrite Hao. unfold sorted. split.
  - apply (Sorted_merge_sort str_le).
  - apply (merge_sort_Permutation str_le).
Qed.

Lemma X10_settings_are_fixed_witness :
  reachable sample_loop (mounted sample_loop) ∧
  ∃ agent_options,
    settings (mounted sample_loop) =
      [ {| key := "agent"; label := "Agent"; type := "cycle";
           options := agent_options; category := "agent" |};
        {| key := "active_model"; label := "Model"; type := "cycle";
           options := map alias (models (config sample_loop));
           category := "model" |} ] ∧
    Sorted str_le agent_options ∧
    agent_options ≡ₚ
      map (λ kv : string * AgentProfile, agent_line (snd kv))
          (available_agents (agent_manager sample_loop)).
Proof.
  split; [apply reachable_mounted|].
  apply (X10_settings_are_fixed sample_loop (mounted sample_loop)).
  apply reachable_mounted.
Defined.

(* --------------------------------------------------------------------- *)
(* AgentApp: choosing a value                                             *)
(* --------------------------------------------------------------------- *)

(** X11: action_toggle_setting on a mounted AgentApp posts exactly one
    message, AgentChanged for the Agent setting and ModelChanged for the
    Model setting, carrying the value the try block picked from the value
    on display; from then on that value is what the selected setting
    displays whatever the agent loop says, the other setting displays what
    it did before, and the index and the settings are untouched. *)
Theorem X11_toggle_sets_the_value (agent_loop0 agent_loop : AgentLoop)
    (self : AgentApp) :
  reachable agent_loop0 self →
  ∃ setting v self',
    getitem (settings self) (selected_index self) = Some setting ∧
    next_value (options setting)
               (_get_display_value self agent_loop setting) = Some v ∧
    action_toggle_setting self agent_loop =
      Returned self'
        [post_message (if String.eqb (category setting) "agent"
                       then AgentChanged v else ModelChanged v)] ∧
    selected_index self' = selected_index self ∧
    settings self' = settings self ∧
    (∀ agent_loop', _get_display_value self' agent_loop' setting = v) ∧
    (∀ agent_loop' other,
       other ∈ settings self → key other ≠ key setting →
       _get_display_value self' agent_loop' other =
         _get_display_value self agent_loop' other).
Proof.
  intros Hr. pose proof (reachable_Inv_app _ _ Hr) as HI.
  destruct (act_effect agent_loop0 agent_loop self toggle_setting HI)
    as (self1 & out & Hact & HI1 & Hws & st & v & Hg & Hv & Hidx & Hcase).
  cbn [act redraws] in Hact.
  exists st, v, (with_widgets self1 (redrawn self1 agent_loop)).
  split; [exact Hg|]. split; [exact Hv|].
  destruct Hcase as [(Hcat & Hk & Hac & Hmc & Hout)
                    | (Hcat & Hk & Hac & Hmc & Hout)];
    rewrite Hcat; cbn [String.eqb Ascii.eqb Bool.eqb]; rewrite <- Hout;
    (split; [exact Hact|]); (split; [exact Hidx|]);
    (split; [cbn; rewrite (inv_settings _ _ HI1), (inv_settings _ _ HI);
             reflexivity|]).
  - split.
    + intros l'. unfold _get_display_value. cbn.
      rewrite Hac, Hk, lookup_insert_eq. reflexivity.
    + intros l' other _ Hne. unfold _get_display_value. cbn.
      rewrite Hac, Hmc, lookup_insert_ne by congruence. reflexivity.
  - split.
    + intros l'. unfold _get_display_value. cbn.
      rewrite Hac, Hmc, Hk, lookup_insert_eq.
      destruct (agent_changes self !! "active_model"%string) as [x|] eqn:Hx;
        [|reflexivity].
      pose proof (inv_agent_keys _ _ HI _ _ Hx). discriminate.
    + intros l' other _ Hne. unfold _get_display_value. cbn.
      rewrite Hac, Hmc, lookup_insert_ne by congruence. reflexivity.
Qed.

Lemma X11_toggle_sets_the_value_witness :
  reachable sample_loop (mounted sample_loop) ∧
  ∃ setting v self',
    getitem (settings (mounted sample_loop))
            (selected_index (mounted sample_loop)) = Some setting ∧
    next_value (options setting)
      (_get_display_value (mounted sample_loop) sample_loop setting) =
      Some v ∧
    action_toggle_setting (mounted sample_loop) sample_loop =
      Returned self'
        [post_message (if String.eqb (category setting) "agent"
                       then AgentChanged v else ModelChanged v)] ∧
    selected_index self' = selected_index (mounted sample_loop) ∧
    settings self' = settings (mounted sample_loop) ∧
    (∀ agent_loop', _get_display_value self' agent_loop' setting = v) ∧
    (∀ agent_loop' other,
       other ∈ settings (mounted sample_loop) → key other ≠ key setting →
       _get_display_value self' agent_loop' other =
         _get_display_value (mounted sample_loop) agent_loop' other).
Proof.
  split; [apply reachable_mounted|].
  apply (X11_toggle_sets_the_value sample_loop sample_loop
           (mounted sample_loop)).
  apply reachable_mounted.
Defined.

(* --------------------------------------------------------------------- *)
(* AgentApp: what the setting widgets show                                *)
(* --------------------------------------------------------------------- *)

Lemma show_spec (self : AgentApp) (agent_loop : AgentLoop) (i : Z)
    (s : AgentSettingDefinition) (w : Static) :
  content (show self agent_loop i s w) =
    (if i =? selected_index self then "› " else "  ")
      +:+ label s +:+ ": " +:+ _get_display_value self agent_loop s ∧
  ("settings-value-cycle-selected"%string ∈ classes (show self agent_loop i s w)
     ↔ i = selected_index self) ∧
  ("settings-value-cycle-unselected"%string ∈ classes (show self agent_loop i s w)
     ↔ i ≠ selected_index self) ∧
  "settings-cursor-selected"%string ∉ classes (show self agent_loop i s w).
Proof.
  unfold show. cbv zeta.
  destruct (Z.eqb_spec i (selected_index self)) as [E|E]; cbn;
    (split; [reflexivity|]);
    rewrite !elem_of_union, !elem_of_difference, !elem_of_singleton;
    split_and!; try split; intros; try tauto;
    repeat match goal with
           | H : _ ∨ _ |- _ => destruct H
           | H : _ ∧ _ |- _ => destruct H
           end;
    try contradiction; try discriminate; try congruence;
    try (right; reflexivity);
    (intros [[[[_ Hne] _] _] | Heq]; [apply Hne; reflexivity|discriminate]).
Qed.

(** X12: after any action of a mounted AgentApp that redraws (moving up or
    down, toggling, cycling), the widget of each setting reads the cursor,
    which is "› " on the selected setting and two spaces elsewhere, then
    the label, ": " and the value the setting displays; it carries the
    class settings-value-cycle-selected exactly when it is the selected
    one and settings-value-cycle-unselected exactly when it is not, never
    settings-cursor-selected, and it keeps its class settings-option. *)
Theorem X12_widgets_show_the_settings (agent_loop0 agent_loop : AgentLoop)
    (self : AgentApp) (a : action) :
  reachable agent_loop0 self → redraws a = true →
  ∃ self' out,
    act a self agent_loop = Returned self' out ∧
    ∀ (k : nat) setting, settings self' !! k = Some setting →
      ∃ w, setting_widgets self' !! k = Some w ∧
        content w =
          (if Z.of_nat k =? selected_index self' then "› " else "  ")
            +:+ label setting +:+ ": "
            +:+ _get_display_value self' agent_loop setting ∧
        ("settings-value-cycle-selected"%string ∈ classes w
           ↔ Z.of_nat k = selected_index self') ∧
        ("settings-value-cycle-unselected"%string ∈ classes w
           ↔ Z.of_nat k ≠ selected_index self') ∧
        ("settings-cursor-selected"%string ∉ classes w) ∧
        ("settings-option"%string ∈ classes w).
Proof.
  intros Hr Hred.
  pose proof (reachable_Inv_app _ _ Hr) as HI.
  destruct (act_effect agent_loop0 agent_loop self a HI)
    as (self1 & out1 & Hact1 & HI1 & Hws & _).
  rewrite Hred in Hact1.
  exists (with_widgets self1 (redrawn self1 agent_loop)), out1.
  split; [exact Hact1|]. intros k setting Hk. cbn in Hk.
  assert (Hl : length (settings self1) = length (setting_widgets self1)).
  { rewrite (inv_settings _ _ HI1), (inv_widgets _ _ HI1). reflexivity. }
  pose proof (lookup_lt_Some _ _ _ Hk) as Hlt.
  destruct (lookup_lt_is_Some_2 (setting_widgets self1) k ltac:(lia))
    as [w0 Hw0].
  exists (show self1 agent_loop (Z.of_nat k) setting w0).
  split; [apply (redrawn_lookup self1 agent_loop k setting w0 Hk Hw0)|].
  destruct (show_spec self1 agent_loop (Z.of_nat k) setting w0)
    as (Hc & Hsel & Hun & Hcur).
  split; [exact Hc|]. split; [exact Hsel|]. split; [exact Hun|].
  split; [exact Hcur|].
  apply show_keeps_option.
  pose proof (inv_classes _ _ HI1) as Hall.
  rewrite Forall_lookup in Hall. apply (Hall k w0 Hw0).
Qed.

Lemma X12_widgets_show_the_settings_witness :
  reachable sample_loop (mounted sample_loop) ∧
  redraws move_down = true ∧
  ∃ self' out,
    act move_down (mounted sample_loop) sample_loop = Returned self' out ∧
    ∀ (k : nat) setting, settings self' !! k = Some setting →
      ∃ w, setting_widgets self' !! k = Some w ∧
        content w =
          (if Z.of_nat k =? selected_index self' then "› " else "  ")
            +:+ label setting +:+ ": "
            +:+ _get_display_value self' sample_loop setting ∧
        ("settings-value-cycle-selected"%string ∈ classes w
           ↔ Z.of_nat k = selected_index self') ∧
        ("settings-value-cycle-unselected"%string ∈ classes w
           ↔ Z.of_nat k ≠ selected_index self') ∧
        ("settings-cursor-selected"%string ∉ classes w) ∧
        ("settings-option"%string ∈ classes w).
Proof.
  split; [apply reachable_mounted|]. split; [reflexivity|].
  apply (X12_widgets_show_the_settings sample_loop sample_loop
           (mounted sample_loop) move_down);
    [apply reachable_mounted|reflexivity].
Defined.

(* --------------------------------------------------------------------- *)
(* AgentApp: what closing reports                                         *)
(* --------------------------------------------------------------------- *)

Lemma last_agent_app (o o' : list request) :
  last_agent (o ++ o') =
    match last_agent o' with Some v => Some v | None => last_agent o end.
Proof.
  induction o as [|r o IH]; cbn.
  - destruct (last_agent o'); reflexivity.
  - rewrite IH. destruct (last_agent o'); reflexivity.
Qed.

Lemma last_model_app (o o' : list request) :
  last_model (o ++ o') =
    match last_model o' with Some v => Some v | None => last_model o end.
Proof.
  induction o as [|r o IH]; cbn.
  - destruct (last_model o'); reflexivity.
  - rewrite IH. destruct (last_model o'); reflexivity.
Qed.

Lemma run_choices (agent_loop0 : AgentLoop)
    (steps : list (action * AgentLoop)) :
  ∀ self out, Inv agent_loop0 self →
    agent_changes self !! "agent"%string = last_agent out →
    model_changes self !! "active_model"%string = last_model out →
    ∃ self' out', run steps self out = Returned self' out' ∧
      Inv agent_loop0 self' ∧
      agent_changes self' !! "agent"%string = last_agent out' ∧
      model_changes self' !! "active_model"%string = last_model out'.
Proof.
  induction steps as [|[a agent_loop] steps IH]; intros self out HI Ha Hm.
  - exists self, out. split_and!; (reflexivity || assumption).
  - cbn [run].
    destruct (act_effect agent_loop0 agent_loop self a HI)
      as (self1 & o1 & Hact & HI1 & Hws & Hcase).
    rewrite Hact.
    assert (HI' : Inv agent_loop0
              (if redraws a
               then with_widgets self1 (redrawn self1 agent_loop)
               else self1)).
    { destruct (redraws a); [apply Inv_redraw|]; exact HI1. }
    apply IH; [exact HI'| |].
    + rewrite last_agent_app.
      replace (agent_changes (if redraws a
                 then with_widgets self1 (redrawn self1 agent_loop)
                 else self1)) with (agent_changes self1)
        by (destruct (redraws a); reflexivity).
      destruct a; cbn in Hcase.
      * destruct Hcase as [-> ->]. exact Ha.
      * destruct Hcase as [-> ->]. exact Ha.
      * destruct Hcase as (st & v & _ & _ & _ &
          [(_ & _ & -> & _ & ->) | (_ & _ & -> & _ & ->)]); cbn.
        -- apply lookup_insert_eq.
        -- exact Ha.
      * destruct Hcase as (st & v & _ & _ & _ &
          [(_ & _ & -> & _ & ->) | (_ & _ & -> & _ & ->)]); cbn.
        -- apply lookup_insert_eq.
        -- exact Ha.
      * destruct Hcase as [-> ->]. exact Ha.
      * destruct Hcase as [-> ->]. exact Ha.
    + rewrite last_model_app.
      replace (model_changes (if redraws a
                 then with_widgets self1 (redrawn self1 agent_loop)
                 else self1)) with (model_changes self1)
        by (destruct (redraws a); reflexivity).
      destruct a; cbn in Hcase.
      * destruct Hcase as [-> ->]. exact Hm.
      * destruct Hcase as [-> ->]. exact Hm.
      * destruct Hcase as (st & v & _ & _ & _ &
          [(_ & _ & _ & -> & ->) | (_ & _ & _ & -> & ->)]); cbn.
        -- exact Hm.
        -- apply lookup_insert_eq.
      * destruct Hcase as (st & v & _ & _ & _ &
          [(_ & _ & _ & -> & ->) | (_ & _ & _ & -> & ->)]); cbn.
        -- exact Hm.
        -- apply lookup_insert_eq.
      * destruct Hcase as [-> ->]. exact Hm.
      * destruct Hcase as [-> ->]. exact Hm.
Qed.

(** X13: whatever actions follow the mount, with the agent loop in any
    state at each of them, none raises, and the two dictionaries that
    action_close then posts in AgentClosed hold exactly the last choices:
    agent_changes has, under "agent", the agent_name of the last
    AgentChanged posted, model_changes has, under "active_model", the
    model_alias of the last ModelChanged posted, either is empty when no
    such message was posted, and neither has any other key. *)
Theorem X13_close_reports_the_last_choices (agent_loop0 : AgentLoop)
    (steps : list (action * AgentLoop)) :
  ∃ self out,
    run steps (mounted agent_loop0) [focus] = Returned self out ∧
    agent_changes self !! "agent"%string = last_agent out ∧
    model_changes self !! "active_model"%string = last_model out ∧
    (∀ k, k ≠ "agent"%string → agent_changes self !! k = None) ∧
    (∀ k, k ≠ "active_model"%string → model_changes self !! k = None) ∧
    action_close self =
      Returned self
        [post_message (AgentClosed (agent_changes self) (model_changes self))].
Proof.
  pose proof (reachable_Inv_app _ _ (reachable_mounted agent_loop0)) as HI0.
  assert (Ha0 : agent_changes (mounted agent_loop0) !! "agent"%string = None).
  { destruct (agent_changes (mounted agent_loop0) !! "agent"%string) eqn:E;
      [|reflexivity].
    exfalso. revert E. unfold mounted, start, on_mount.
    rewrite update_display_returns by reflexivity. cbn.
    rewrite lookup_empty. discriminate. }
  assert (Hm0 : model_changes (mounted agent_loop0) !! "active_model"%string
                = None).
  { destruct (model_changes (mounted agent_loop0) !! "active_model"%string)
      eqn:E; [|reflexivity].
    exfalso. revert E. unfold mounted, start, on_mount.
    rewrite update_display_returns by reflexivity. cbn.
    rewrite lookup_empty. discriminate. }
  destruct (run_choices agent_loop0 steps (mounted agent_loop0) [focus]
              HI0 Ha0 Hm0) as (self & out & Hrun & HI & Ha & Hm).
  exists self, out. split; [exact Hrun|]. split; [exact Ha|].
  split; [exact Hm|]. split; [|split; [|reflexivity]].
  - intros k Hk. destruct (agent_changes self !! k) as [v|] eqn:E;
      [|reflexivity].
    exfalso. apply Hk. apply (inv_agent_keys _ _ HI k v E).
  - intros k Hk. destruct (model_changes self !! k) as [v|] eqn:E;
      [|reflexivity].
    exfalso. apply Hk. apply (inv_model_keys _ _ HI k v E).
Qed.

Example two_toggles_then_close :
  match run [(toggle_setting, sample_loop); (move_down, sample_loop);
             (toggle_setting, sample_loop); (close, sample_loop)]
            (mounted sample_loop) [focus] with
  | Returned self out =>
      (selected_index self, out,
       content <$> setting_widgets self)
  | Raised _ self out => (-1, out, [])
  end =
  (1,
   [ focus;
     post_message (AgentChanged "Plan - reads, then proposes");
     post_message (ModelChanged "large");
     post_message
       (AgentClosed {[ "agent"%string := "Plan - reads, then proposes"%string ]}
                    {[ "active_model"%string := "large"%string ]}) ],
   [ "  Agent: Plan - reads, then proposes"%string;
     "› Model: large"%string ]).
Proof. vm_compute. reflexivity. Qed.

End agent_app_properties.
